(** * fs-copy-compat: the recursive copy polyfill of [cpSync.ts]

    A shallow embedding of [getSymlinkType] and [polyfillCpSync].  The
    polyfill is written against Node's [fs] and [path] modules, the
    [is-absolute] and [mkdirp-classic] packages and the byte copier
    [copyFileSync]; these are the host of the program and enter the
    development as an interface ([NodeHost]).  Every run records the
    sequence of host calls it makes together with their results, so that
    statements about "what the copy does" are statements about that
    sequence and about the disk it leaves behind.

    One implementation of the interface is given, an in-memory POSIX file
    system ([MemFs]), on which concrete runs are evaluated. *)

From Stdlib Require Import String Ascii List Bool Arith Lia.
Import ListNotations.
Local Open Scope string_scope.
Local Open Scope list_scope.

Set Implicit Arguments.

(** ** Data *)

(** [fs.Stats]: the only part the polyfill looks at is the file type
    encoded in the mode word. *)
Inductive FileType : Type :=
  | S_IFREG | S_IFDIR | S_IFLNK | S_IFIFO | S_IFSOCK | S_IFCHR | S_IFBLK.

Record Stats : Type := { st_type : FileType }.

Definition isFile (s : Stats) : bool :=
  match st_type s with S_IFREG => true | _ => false end.
Definition isDirectory (s : Stats) : bool :=
  match st_type s with S_IFDIR => true | _ => false end.
Definition isSymbolicLink (s : Stats) : bool :=
  match st_type s with S_IFLNK => true | _ => false end.

(** [NodeJS.ErrnoException]: an [Error] with a [code]. *)
Record ErrnoException : Type := { message : string; code : string }.

(** The third argument of [fs.symlinkSync]: ['file' | 'dir' | 'junction']. *)
Inductive SymlinkType : Type := type_file | type_dir | type_junction.

(** [interface CpSyncOptions]: every field is optional. *)
Record CpSyncOptions : Type := {
  recursive : option bool;
  verbatimSymlinks : option bool;
  dereference : option bool
}.

(** [options?.field ?? false], which for a boolean field is also the
    truthiness of [options && options.field]. *)
Definition flag (field : CpSyncOptions -> option bool)
    (options : option CpSyncOptions) : bool :=
  match options with
  | Some o => match field o with Some b => b | None => false end
  | None => false
  end.

(** Truthiness of a JavaScript string: only the empty string is falsy. *)
Definition truthy (s : string) : bool := negb (s =? "").

(** ** The host interface *)

(** Queries are functions of the disk; they either return or throw.
    Mutations give back the new disk together with the error they threw,
    if any. *)
Class NodeHost (Fs : Type) : Type := {
  platform : string;                                   (* process.platform *)
  isAbsolute : string -> bool;                         (* is-absolute *)
  path_dirname : string -> string;                     (* path.dirname *)
  path_join : string -> string -> string;              (* path.join *)
  path_resolve : string -> string -> string;           (* path.resolve *)
  path_relative : string -> string -> string;          (* path.relative *)
  lstatSync : Fs -> string -> ErrnoException + Stats;
  statSync : Fs -> string -> ErrnoException + Stats;
  realpathSync : Fs -> string -> ErrnoException + string;
  existsSync : Fs -> string -> bool;
  readlinkSync : Fs -> string -> ErrnoException + string;
  readdirSync : Fs -> string -> ErrnoException + list string;
  mkdirpSync : Fs -> string -> option ErrnoException * Fs;      (* mkdirp.sync *)
  unlinkSync : Fs -> string -> option ErrnoException * Fs;
  symlinkSync : Fs -> string -> string -> SymlinkType -> option ErrnoException * Fs;
  copyFileSync : Fs -> string -> string -> option ErrnoException * Fs
}.

(** ** Runs: outcome, disk and the record of host calls *)

Inductive Event : Type :=
  | EvCall (src dest : string) (options : option CpSyncOptions)
  | EvLstat (p : string) (r : ErrnoException + Stats)
  | EvStat (p : string) (r : ErrnoException + Stats)
  | EvRealpath (p : string) (r : ErrnoException + string)
  | EvExists (p : string) (r : bool)
  | EvReadlink (p : string) (r : ErrnoException + string)
  | EvReaddir (p : string) (r : ErrnoException + list string)
  | EvMkdirp (p : string) (r : option ErrnoException)
  | EvUnlink (p : string) (r : option ErrnoException)
  | EvSymlink (target p : string) (type : SymlinkType) (r : option ErrnoException)
  | EvCopyFile (src dest : string) (r : option ErrnoException)
  | EvThrow (e : ErrnoException).

(** The calls that can change the file system. *)
Definition is_mutation (ev : Event) : bool :=
  match ev with
  | EvMkdirp _ _ | EvUnlink _ _ | EvSymlink _ _ _ _ | EvCopyFile _ _ _ => true
  | _ => false
  end.

(** The calls that belong to copying a link as a link. *)
Definition is_link_op (ev : Event) : bool :=
  match ev with
  | EvReadlink _ _ | EvUnlink _ _ | EvSymlink _ _ _ _ => true
  | _ => false
  end.

Inductive Outcome (A : Type) : Type :=
  | Returned (a : A)
  | Thrown (e : ErrnoException)
  | OutOfFuel.
Arguments Thrown {A} e.
Arguments OutOfFuel {A}.

Record Ran (Fs A : Type) : Type := mkRan {
  outcome : Outcome A;
  disk : Fs;
  events : list Event
}.

Definition Run (Fs A : Type) : Type := Fs -> Ran Fs A.

Section Monad.
Context {Fs : Type}.

Definition ret {A} (a : A) : Run Fs A := fun d => mkRan (Returned a) d [].

Definition bind {A B} (m : Run Fs A) (k : A -> Run Fs B) : Run Fs B :=
  fun d =>
    let r := m d in
    match outcome r with
    | Returned a =>
        let r' := k a (disk r) in
        mkRan (outcome r') (disk r') (events r ++ events r')
    | Thrown e => mkRan (Thrown e) (disk r) (events r)
    | OutOfFuel => mkRan OutOfFuel (disk r) (events r)
    end.

(** [throw err] *)
Definition throw {A} (e : ErrnoException) : Run Fs A :=
  fun d => mkRan (Thrown e) d [EvThrow e].

(** [try { body } catch (_e) { handler }] *)
Definition try_catch {A} (body : Run Fs A) (handler : ErrnoException -> Run Fs A)
    : Run Fs A :=
  fun d =>
    let r := body d in
    match outcome r with
    | Thrown e =>
        let r' := handler e (disk r) in
        mkRan (outcome r') (disk r') (events r ++ events r')
    | _ => r
    end.

Definition out_of_fuel {A} : Run Fs A := fun d => mkRan OutOfFuel d [].

Definition note (ev : Event) : Run Fs unit := fun d => mkRan (Returned tt) d [ev].

(** A host query: the disk is left as it is. *)
Definition query {A} (ask : Fs -> ErrnoException + A)
    (ev : ErrnoException + A -> Event) : Run Fs A :=
  fun d =>
    match ask d with
    | inl e => mkRan (Thrown e) d [ev (inl e)]
    | inr a => mkRan (Returned a) d [ev (inr a)]
    end.

(** A host mutation. *)
Definition mutate (act : Fs -> option ErrnoException * Fs)
    (ev : option ErrnoException -> Event) : Run Fs unit :=
  fun d =>
    match act d with
    | (Some e, d') => mkRan (Thrown e) d' [ev (Some e)]
    | (None, d') => mkRan (Returned tt) d' [ev None]
    end.
End Monad.

Declare Scope run_scope.
Delimit Scope run_scope with run.
Notation "x <- m ;; k" := (bind m (fun x => k))
  (at level 100, m at next level, right associativity) : run_scope.
Notation "m ;; k" := (bind m (fun _ => k))
  (at level 100, right associativity) : run_scope.
Local Open Scope run_scope.

(** [for (let i = 0; i < xs.length; i++) body(xs[i])] *)
Definition for_each {Fs A} (body : A -> Run Fs unit) : list A -> Run Fs unit :=
  fix loop (xs : list A) : Run Fs unit :=
    match xs with
    | [] => ret tt
    | x :: xs' => body x ;; loop xs'
    end.

(** ** The program *)

Section Polyfill.
Context {Fs : Type} {Host : NodeHost Fs}.

Definition fs_lstatSync (p : string) : Run Fs Stats :=
  query (fun d => lstatSync d p) (EvLstat p).
Definition fs_statSync (p : string) : Run Fs Stats :=
  query (fun d => statSync d p) (EvStat p).
Definition fs_realpathSync (p : string) : Run Fs string :=
  query (fun d => realpathSync d p) (EvRealpath p).
Definition fs_readlinkSync (p : string) : Run Fs string :=
  query (fun d => readlinkSync d p) (EvReadlink p).
Definition fs_readdirSync (p : string) : Run Fs (list string) :=
  query (fun d => readdirSync d p) (EvReaddir p).
Definition fs_existsSync (p : string) : Run Fs bool :=
  fun d => let b := existsSync d p in mkRan (Returned b) d [EvExists p b].
Definition mkdirp_sync (p : string) : Run Fs unit :=
  mutate (fun d => mkdirpSync d p) (EvMkdirp p).
Definition fs_unlinkSync (p : string) : Run Fs unit :=
  mutate (fun d => unlinkSync d p) (EvUnlink p).
Definition fs_symlinkSync (target p : string) (type : SymlinkType) : Run Fs unit :=
  mutate (fun d => symlinkSync d target p type) (EvSymlink target p type).
Definition copy_file_sync (src dest : string) : Run Fs unit :=
  mutate (fun d => copyFileSync d src dest) (EvCopyFile src dest).

(** [if (cond) body] *)
Definition when (cond : bool) (body : Run Fs unit) : Run Fs unit :=
  if cond then body else ret tt.

(** [p && !fs.existsSync(p)]: the disk is probed only for a truthy [p]. *)
Definition and_not_exists (p : string) : Run Fs bool :=
  if truthy p then (b <- fs_existsSync p ;; ret (negb b)) else ret false.

(** cpSync.ts, lines 18-34. *)
Definition getSymlinkType (targetPath srcPath : string) : Run Fs SymlinkType :=
  if negb (platform =? "win32") then ret type_file
  else
    try_catch
      (let resolvedTarget :=
         if isAbsolute targetPath then targetPath
         else path_resolve (path_dirname srcPath) targetPath in
       stat <- fs_statSync resolvedTarget ;;
       ret (if isDirectory stat then type_dir else type_file))
      (fun _e => ret type_file).

(** The error built at lines 104-105. *)
Definition EISDIR (src : string) : ErrnoException :=
  {| message := "EISDIR: illegal operation on a directory, read '" ++ src ++ "'";
     code := "EISDIR" |}.

(** cpSync.ts, lines 40-116.  The recursion of the source is bounded by
    [fuel]; [EvCall] marks the entry of every invocation. *)
Fixpoint polyfillCpSync (fuel : nat) (src dest : string)
    (options : option CpSyncOptions) : Run Fs unit :=
  match fuel with
  | O => out_of_fuel
  | S fuel' =>
    note (EvCall src dest options) ;;
    let verbatimSymlinks := flag verbatimSymlinks options in
    let dereference := flag dereference options in
    lstat <- fs_lstatSync src ;;
    if isSymbolicLink lstat then
      if dereference then
        realPath <- fs_realpathSync src ;;
        realStat <- fs_statSync realPath ;;
        if isDirectory realStat then
          polyfillCpSync fuel' realPath dest options
        else
          let parentDir := path_dirname dest in
          missing <- and_not_exists parentDir ;;
          when missing (mkdirp_sync parentDir) ;;
          copy_file_sync realPath dest
      else
        let parentDir := path_dirname dest in
        missing <- and_not_exists parentDir ;;
        when missing (mkdirp_sync parentDir) ;;
        linkTarget <- fs_readlinkSync src ;;
        let newLinkTarget :=
          if verbatimSymlinks then linkTarget
          else
            let resolvedTarget :=
              if isAbsolute linkTarget then linkTarget
              else path_resolve (path_dirname src) linkTarget in
            let newLinkTarget := path_relative (path_dirname dest) resolvedTarget in
            if negb (truthy newLinkTarget) then "." else newLinkTarget in
        occupied <- fs_existsSync dest ;;
        when occupied (fs_unlinkSync dest) ;;
        symlinkType <- getSymlinkType linkTarget src ;;
        fs_symlinkSync newLinkTarget dest symlinkType
    else if isFile lstat then
      let parentDir := path_dirname dest in
      missing <- and_not_exists parentDir ;;
      when missing (mkdirp_sync parentDir) ;;
      copy_file_sync src dest
    else if isDirectory lstat then
      when (negb (flag recursive options)) (throw (EISDIR src)) ;;
      absent <- (b <- fs_existsSync dest ;; ret (negb b)) ;;
      when absent (mkdirp_sync dest) ;;
      entries <- fs_readdirSync src ;;
      for_each
        (fun entry =>
           polyfillCpSync fuel' (path_join src entry) (path_join dest entry) options)
        entries
    else ret tt
  end.
End Polyfill.

(** ** An in-memory POSIX host

    Paths are [/]-separated strings and the working directory is the
    root.  The disk maps canonical absolute paths (lists of names below
    the root) to inodes; directory listings come out in creation order. *)

Module MemFs.
Local Open Scope string_scope.

Inductive Inode : Type :=
  | IFile (data : string)
  | IDir
  | ILink (target : string)
  | IFifo.

Definition Disk : Type := list (list string * Inode).

(** *** Path strings *)

Fixpoint segments_from (cur : string) (s : string) : list string :=
  match s with
  | EmptyString => [cur]
  | String c s' =>
      if Ascii.eqb c "/" then cur :: segments_from "" s'
      else segments_from (cur ++ String c "") s'
  end.

(** The names between the slashes, empty ones dropped. *)
Definition names (p : string) : list string :=
  filter truthy (segments_from "" p).

Definition starts_with_slash (p : string) : bool :=
  match p with String c _ => Ascii.eqb c "/" | EmptyString => false end.

(** [normalizeString]: [acc] is the stack of names kept so far, innermost
    first. *)
Fixpoint normalize_names (allowAboveRoot : bool) (acc : list string)
    (ns : list string) : list string :=
  match ns with
  | [] => rev acc
  | n :: ns' =>
      if n =? "." then normalize_names allowAboveRoot acc ns'
      else if n =? ".." then
        match acc with
        | top :: acc' =>
            if top =? ".." then normalize_names allowAboveRoot (n :: acc) ns'
            else normalize_names allowAboveRoot acc' ns'
        | [] =>
            if allowAboveRoot then normalize_names allowAboveRoot [n] ns'
            else normalize_names allowAboveRoot [] ns'
        end
      else normalize_names allowAboveRoot (n :: acc) ns'
  end.

Fixpoint unwords_slash (ns : list string) : string :=
  match ns with
  | [] => ""
  | [n] => n
  | n :: ns' => n ++ "/" ++ unwords_slash ns'
  end.

Definition absolute_of (ns : list string) : string := "/" ++ unwords_slash ns.

Definition posix_isAbsolute (p : string) : bool := starts_with_slash p.

(** [path.resolve(a, b)] with [process.cwd() = "/"]. *)
Definition resolve_names (a b : string) : list string :=
  normalize_names false []
    (if starts_with_slash b then names b else (names a ++ names b)%list).

Definition posix_resolve (a b : string) : string := absolute_of (resolve_names a b).

(** [path.join(a, b)]; the paths met here carry no trailing slash. *)
Definition posix_join (a b : string) : string :=
  let joined :=
    if truthy a then (if truthy b then a ++ "/" ++ b else a) else b in
  if truthy joined then
    let body :=
      unwords_slash (normalize_names (negb (starts_with_slash joined)) [] (names joined)) in
    if starts_with_slash joined then "/" ++ body
    else if truthy body then body else "."
  else ".".

Fixpoint drop_while {A} (f : A -> bool) (xs : list A) : list A :=
  match xs with
  | x :: xs' => if f x then drop_while f xs' else xs
  | [] => []
  end.

Definition is_slash (c : ascii) : bool := Ascii.eqb c "/".

(** [path.dirname]: scan from the end, skipping trailing slashes, up to the
    last separator at an index of at least one. *)
Definition posix_dirname (p : string) : string :=
  match list_ascii_of_string p with
  | [] => "."
  | c0 :: rest =>
      let tail := drop_while (fun c => negb (is_slash c)) (drop_while is_slash (rev rest)) in
      match tail with
      | [] => if is_slash c0 then "/" else "."
      | _ :: before =>
          match before with
          | [] => if is_slash c0 then "//" else String c0 ""
          | _ => string_of_list_ascii (c0 :: rev before)
          end
      end
  end.

Fixpoint strip_common (from to : list string) : list string * list string :=
  match from, to with
  | f :: from', t :: to' =>
      if f =? t then strip_common from' to' else (from, to)
  | _, _ => (from, to)
  end.

(** [path.relative(from, to)] *)
Definition posix_relative (from to : string) : string :=
  let (up, down) := strip_common (resolve_names "" from) (resolve_names "" to) in
  unwords_slash (map (fun _ => "..") up ++ down)%list.

(** *** The disk *)

Fixpoint names_eqb (a b : list string) : bool :=
  match a, b with
  | [], [] => true
  | x :: a', y :: b' => (x =? y) && names_eqb a' b'
  | _, _ => false
  end.

Fixpoint assoc (d : Disk) (p : list string) : option Inode :=
  match d with
  | [] => None
  | (q, i) :: d' => if names_eqb q p then Some i else assoc d' p
  end.

(** The root is always there. *)
Definition inode_at (d : Disk) (p : list string) : option Inode :=
  match p with [] => Some IDir | _ => assoc d p end.

Fixpoint remove_at (d : Disk) (p : list string) : Disk :=
  match d with
  | [] => []
  | (q, i) :: d' => if names_eqb q p then remove_at d' p else (q, i) :: remove_at d' p
  end.

Fixpoint put_at (d : Disk) (p : list string) (i : Inode) : Disk :=
  match d with
  | [] => [(p, i)]
  | (q, j) :: d' => if names_eqb q p then (q, i) :: d' else (q, j) :: put_at d' p i
  end.

Definition errno (c what syscall p : string) : ErrnoException :=
  {| message := c ++ ": " ++ what ++ ", " ++ syscall ++ " '" ++ p ++ "'"; code := c |}.

(** What a call on two paths shows in its errors: ['a' -> 'b']. *)
Definition onto (a b : string) : string := a ++ "' -> '" ++ b.

Definition ENOENT := errno "ENOENT" "no such file or directory".
Definition ENOTDIR := errno "ENOTDIR" "not a directory".
Definition ELOOP := errno "ELOOP" "too many symbolic links encountered".
Definition EEXIST := errno "EEXIST" "file already exists".
Definition EINVAL := errno "EINVAL" "invalid argument".
Definition EISDIR_sys := errno "EISDIR" "illegal operation on a directory".

(** Path resolution.  [cur] is the canonical directory reached so far and
    [rest] the names still to be walked; a link met on the way is replaced
    by its target, the last name only when [follow] is set.  The result is
    the canonical path together with the inode found there, if any. *)
Fixpoint walk (fuel : nat) (d : Disk) (follow : bool) (syscall p : string)
    (cur rest : list string) : ErrnoException + (list string * option Inode) :=
  match fuel with
  | O => inl (ELOOP syscall p)
  | S fuel' =>
      match rest with
      | [] => inr (cur, inode_at d cur)
      | n :: rest' =>
          match inode_at d cur with
          | None => inl (ENOENT syscall p)
          | Some IDir =>
              if n =? "." then walk fuel' d follow syscall p cur rest'
              else if n =? ".." then walk fuel' d follow syscall p (removelast cur) rest'
              else
                let here := (cur ++ [n])%list in
                match inode_at d here with
                | None =>
                    match rest' with
                    | [] => inr (here, None)
                    | _ => inl (ENOENT syscall p)
                    end
                | Some (ILink t) =>
                    match rest', follow with
                    | [], false => inr (here, Some (ILink t))
                    | _, _ =>
                        walk fuel' d follow syscall p
                          (if starts_with_slash t then [] else cur) (names t ++ rest')%list
                    end
                | Some _ => walk fuel' d follow syscall p here rest'
                end
          | Some _ => inl (ENOTDIR syscall p)
          end
      end
  end.

(** [lookup_as] resolves [p]; its errors show [shown]. *)
Definition lookup_as (d : Disk) (follow : bool) (syscall shown p : string)
    : ErrnoException + (list string * option Inode) :=
  walk 64 d follow syscall shown [] (names p).

Definition lookup (d : Disk) (follow : bool) (syscall p : string)
    : ErrnoException + (list string * option Inode) :=
  lookup_as d follow syscall p p.

Definition stats_of (i : Inode) : Stats :=
  {| st_type :=
       match i with
       | IFile _ => S_IFREG
       | IDir => S_IFDIR
       | ILink _ => S_IFLNK
       | IFifo => S_IFIFO
       end |}.

Definition mem_stat (follow : bool) (syscall : string) (d : Disk) (p : string)
    : ErrnoException + Stats :=
  match lookup d follow syscall p with
  | inl e => inl e
  | inr (_, Some i) => inr (stats_of i)
  | inr (_, None) => inl (ENOENT syscall p)
  end.

Definition mem_realpath (d : Disk) (p : string) : ErrnoException + string :=
  match lookup d true "realpath" p with
  | inl e => inl e
  | inr (q, Some _) => inr (absolute_of q)
  | inr (_, None) => inl (ENOENT "realpath" p)
  end.

Definition mem_exists (d : Disk) (p : string) : bool :=
  match mem_stat true "stat" d p with inr _ => true | inl _ => false end.

Definition mem_readlink (d : Disk) (p : string) : ErrnoException + string :=
  match lookup d false "readlink" p with
  | inl e => inl e
  | inr (_, Some (ILink t)) => inr t
  | inr (_, Some _) => inl (EINVAL "readlink" p)
  | inr (_, None) => inl (ENOENT "readlink" p)
  end.

Fixpoint children (d : Disk) (dir : list string) : list string :=
  match d with
  | [] => []
  | (q, _) :: d' =>
      match rev q with
      | n :: parent_rev =>
          if names_eqb (rev parent_rev) dir then n :: children d' dir
          else children d' dir
      | [] => children d' dir
      end
  end.

Definition mem_readdir (d : Disk) (p : string) : ErrnoException + list string :=
  match lookup d true "scandir" p with
  | inl e => inl e
  | inr (q, Some IDir) => inr (children d q)
  | inr (_, Some _) => inl (ENOTDIR "scandir" p)
  | inr (_, None) => inl (ENOENT "scandir" p)
  end.

(** [mkdirp.sync]: make every missing directory on the way to [p];
    [enter d cur n] resolves the name [n] below the directory [cur]. *)
Fixpoint mkdirp_from
    (enter : Disk -> list string -> string ->
             ErrnoException + (list string * option Inode))
    (d : Disk) (p : string) (cur rest : list string)
    : option ErrnoException * Disk :=
  match rest with
  | [] => (None, d)
  | n :: rest' =>
      match enter d cur n with
      | inl e => (Some e, d)
      | inr (q, Some IDir) => mkdirp_from enter d p q rest'
      | inr (q, Some _) => (Some (EEXIST "mkdir" p), d)
      | inr (q, None) =>
          match inode_at d (cur ++ [n])%list with
          | Some _ => (Some (EEXIST "mkdir" p), d)
          | None => mkdirp_from enter (put_at d q IDir) p q rest'
          end
      end
  end.

Definition mem_mkdirp (d : Disk) (p : string) : option ErrnoException * Disk :=
  mkdirp_from (fun d cur n => walk 64 d true "mkdir" p cur [n]) d p []
    (resolve_names "" p).

(** [unlink(2)] removes a name that is not a directory; the link itself
    when the name is a link. *)
Definition mem_unlink (d : Disk) (p : string) : option ErrnoException * Disk :=
  match lookup d false "unlink" p with
  | inl e => (Some e, d)
  | inr (_, None) => (Some (ENOENT "unlink" p), d)
  | inr (_, Some IDir) => (Some (EISDIR_sys "unlink" p), d)
  | inr (q, Some _) => (None, remove_at d q)
  end.

(** [symlink(2)] refuses a name that is taken, whatever holds it. *)
Definition mem_symlink (d : Disk) (target p : string) (type : SymlinkType)
    : option ErrnoException * Disk :=
  match lookup_as d false "symlink" (onto target p) p with
  | inl e => (Some e, d)
  | inr (_, Some _) => (Some (EEXIST "symlink" (onto target p)), d)
  | inr (q, None) => (None, put_at d q (ILink target))
  end.

(** The byte copier: the content of [src] replaces whatever file [dest]
    names, both followed through links. *)
Definition mem_copyFile (d : Disk) (src dest : string) : option ErrnoException * Disk :=
  let shown := onto src dest in
  match lookup_as d true "copyfile" shown src with
  | inl e => (Some e, d)
  | inr (_, None) => (Some (ENOENT "copyfile" shown), d)
  | inr (_, Some (IFile data)) =>
      match lookup_as d true "copyfile" shown dest with
      | inl e => (Some e, d)
      | inr (q, None) => (None, put_at d q (IFile data))
      | inr (q, Some (IFile _)) => (None, put_at d q (IFile data))
      | inr (_, Some IDir) => (Some (EISDIR_sys "copyfile" shown), d)
      | inr (_, Some _) => (Some (EINVAL "copyfile" shown), d)
      end
  | inr (_, Some IDir) => (Some (EISDIR_sys "copyfile" shown), d)
  | inr (_, Some _) => (Some (EINVAL "copyfile" shown), d)
  end.

(** The host, for a given [process.platform]. *)
Definition host (plat : string) : NodeHost Disk := {|
  platform := plat;
  isAbsolute := posix_isAbsolute;
  path_dirname := posix_dirname;
  path_join := posix_join;
  path_resolve := posix_resolve;
  path_relative := posix_relative;
  lstatSync := mem_stat false "lstat";
  statSync := mem_stat true "stat";
  realpathSync := mem_realpath;
  existsSync := mem_exists;
  readlinkSync := mem_readlink;
  readdirSync := mem_readdir;
  mkdirpSync := mem_mkdirp;
  unlinkSync := mem_unlink;
  symlinkSync := mem_symlink;
  copyFileSync := mem_copyFile
|}.

Definition linux : NodeHost Disk := host "linux".
Definition win32 : NodeHost Disk := host "win32".

(** [cp fuel src dest options d]: a run of the polyfill on the Linux host. *)
Definition cp := @polyfillCpSync Disk linux.

End MemFs.


(** ** Scenarios on the in-memory host *)

Module Scenario.
Import MemFs.

(** A source tree [/s] with a file, a link to it, a link to a directory, a
    link to nothing, a subdirectory and a named pipe; nothing at [/d]. *)
Definition tree : Disk :=
  [ (["s"], IDir);
    (["s"; "target.txt"], IFile "target content");
    (["s"; "link.txt"], ILink "target.txt");
    (["s"; "sub"], IDir);
    (["s"; "sub"; "f"], IFile "x");
    (["s"; "linkdir"], ILink "sub");
    (["s"; "dangling"], ILink "missing");
    (["s"; "pipe"], IFifo) ].

(** The same tree with a regular file already at [/d/link.txt]. *)
Definition tree_with_file_at_dest : Disk :=
  (tree ++ [ (["d"], IDir); (["d"; "link.txt"], IFile "old") ])%list.

(** The same tree with a directory already at [/d/link.txt]. *)
Definition tree_with_directory_at_dest : Disk :=
  (tree ++ [ (["d"], IDir); (["d"; "link.txt"], IDir) ])%list.

(** The same tree with a link to an existing file already at [/d/link.txt]. *)
Definition tree_with_live_link_at_dest : Disk :=
  (tree ++ [ (["d"], IDir); (["d"; "link.txt"], ILink "../s/sub/f") ])%list.

(** The same tree with a link to nothing already at [/d/link.txt]. *)
Definition tree_with_stale_link_at_dest : Disk :=
  (tree ++ [ (["d"], IDir); (["d"; "link.txt"], ILink "nowhere") ])%list.

(** A source directory holding one link whose target does not exist. *)
Definition stale_tree : Disk :=
  [ (["s"], IDir); (["s"; "dangling"], ILink "missing") ].

(** The fixture of the repository's tests: a file, a link to it, a
    directory and a link to that directory. *)
Definition fixture : Disk :=
  [ (["src"], IDir);
    (["src"; "target.txt"], IFile "target content");
    (["src"; "link.txt"], ILink "target.txt");
    (["src"; "realdir"], IDir);
    (["src"; "realdir"; "file.txt"], IFile "file content");
    (["src"; "linkdir"], ILink "realdir") ].

Definition defaults : option CpSyncOptions := None.

Definition verbatim : option CpSyncOptions :=
  Some {| recursive := Some true; verbatimSymlinks := Some true; dereference := None |}.

Definition recursively : option CpSyncOptions :=
  Some {| recursive := Some true; verbatimSymlinks := None; dereference := None |}.

Definition dereferencing : option CpSyncOptions :=
  Some {| recursive := Some true; verbatimSymlinks := None; dereference := Some true |}.

End Scenario.

(** * Properties of the polyfill *)

Local Open Scope list_scope.

(** [after evs r]: the run [r] with the calls [evs] recorded before it. *)
Definition after {Fs A} (evs : list Event) (r : Ran Fs A) : Ran Fs A :=
  mkRan (outcome r) (disk r) (evs ++ events r).

(** [Always P m]: whatever the disk, every call recorded by [m] satisfies [P]. *)
Definition Always {Fs A} (P : Event -> Prop) (m : Run Fs A) : Prop :=
  forall d, Forall P (events (m d)).

(** A link target as the specification words it: the raw target when
    links are copied verbatim; otherwise the raw target made absolute
    (against the directory of the source link when it is relative) and
    re-expressed relative to the directory of the destination link, with
    ["."] for an empty result. *)
Definition relinked {Fs} {Host : NodeHost Fs} (verbatim : bool)
    (raw srcLink destLink : string) : string :=
  if verbatim then raw
  else
    let absolute :=
      if isAbsolute raw then raw else path_resolve (path_dirname srcLink) raw in
    let rel := path_relative (path_dirname destLink) absolute in
    if (rel =? "")%string then "."%string else rel.

(** The path whose status decides the link type on Windows: the raw
    target, taken relative to the directory of the link source when it is
    not absolute. *)
Definition hint_target {Fs} {Host : NodeHost Fs} (rawTarget linkSourcePath : string)
    : string :=
  if isAbsolute rawTarget then rawTarget
  else path_resolve (path_dirname linkSourcePath) rawTarget.

(** Calls that look through a link at what it points to.  On Windows the
    status of a link's target is read for the type hint alone. *)
Definition is_resolution {Fs} {Host : NodeHost Fs} (ev : Event) : bool :=
  match ev with
  | EvRealpath _ _ => true
  | EvStat _ _ => negb (platform =? "win32")%string
  | _ => false
  end.

(** Calls by which an entry is copied as a file or as a directory. *)
Definition is_content_copy (ev : Event) : bool :=
  match ev with
  | EvCall _ _ _ | EvCopyFile _ _ _ | EvReaddir _ _ | EvRealpath _ _ => true
  | _ => false
  end.

(** [evs] ends with the creation of the link [dest -> target], and nothing
    before it in [evs] changes the disk. *)
Definition link_created (target dest : string) (evs : list Event) : Prop :=
  exists hint type res,
    evs = hint ++ [EvSymlink target dest type res] /\
    Forall (fun ev => is_mutation ev = false) hint.

Section Statements.
Context {Fs : Type} {Host : NodeHost Fs}.

(** Every link the run creates is created at [dest] with the relinked
    form of the raw target the run read from [src]; and a run that returns
    has created it. *)
Definition writes_relinked_target (src dest : string)
    (options : option CpSyncOptions) (r : Ran Fs unit) : Prop :=
  (forall target p type res,
     In (EvSymlink target p type res) (events r) ->
     p = dest /\
     exists raw,
       In (EvReadlink src (inr raw)) (events r) /\
       target = relinked (flag verbatimSymlinks options) raw src dest) /\
  (outcome r = Returned tt ->
   exists raw type,
     In (EvReadlink src (inr raw)) (events r) /\
     In (EvSymlink (relinked (flag verbatimSymlinks options) raw src dest) dest type None)
        (events r)).

(** Ensuring the parent of [dest] and then copying the bytes of
    [realPath] to [dest], spelled out on the host.  The directory of
    [dest] is probed with [existsSync], unless its name is empty; when the
    probe finds nothing the directory is made with [mkdirp], and a failure
    of that is the end of the run; the bytes are then copied with
    [copyFileSync] on the disk so reached, and how that call ends is how
    the run ends. *)
Definition ensured_copy (realPath dest : string) (d : Fs) : Ran Fs unit :=
  let parentDir := path_dirname dest in
  let copy (made : list Event) (d0 : Fs) : Ran Fs unit :=
    match copyFileSync d0 realPath dest with
    | (Some e, d1) =>
        mkRan (Thrown e) d1 (made ++ [EvCopyFile realPath dest (Some e)])
    | (None, d1) =>
        mkRan (Returned tt) d1 (made ++ [EvCopyFile realPath dest None])
    end in
  if (parentDir =? "")%string then copy [] d
  else if existsSync d parentDir then copy [EvExists parentDir true] d
  else
    match mkdirpSync d parentDir with
    | (Some e, d1) =>
        mkRan (Thrown e) d1 [EvExists parentDir false; EvMkdirp parentDir (Some e)]
    | (None, d1) => copy [EvExists parentDir false; EvMkdirp parentDir None] d1
    end.

(** The run [r] of an invocation on the link [src], started on disk [d]
    with [n] nested invocations allowed: the link is resolved, the real
    path is classified by its followed status, and a directory is handed
    to the tree copy with the same [dest] while anything else is copied
    byte for byte to [dest], once the parent of [dest] is there. *)
Definition copies_resolved_target (n : nat) (src dest : string)
    (options : option CpSyncOptions) (d : Fs) (st : Stats) (r : Ran Fs unit) : Prop :=
  let entered := [EvCall src dest options; EvLstat src (inr st)] in
  match realpathSync d src with
  | inl e => r = mkRan (Thrown e) d (entered ++ [EvRealpath src (inl e)])
  | inr realPath =>
      match statSync d realPath with
      | inl e =>
          r = mkRan (Thrown e) d
                (entered ++ [EvRealpath src (inr realPath); EvStat realPath (inl e)])
      | inr realStat =>
          let resolved :=
            entered ++ [EvRealpath src (inr realPath); EvStat realPath (inr realStat)] in
          if isDirectory realStat
          then r = after resolved (polyfillCpSync n realPath dest options d)
          else r = after resolved (ensured_copy realPath dest d)
      end
  end.

(** Once the raw target has been read, [dest] is probed; an entry the
    probe reports is unlinked before the link is created, a failure of
    that unlink is the outcome of the run, and without a reported entry
    the link is created with no removal. *)
Definition removes_reported_entry (src dest : string)
    (options : option CpSyncOptions) (r : Ran Fs unit) : Prop :=
  forall pre raw post,
    events r = pre ++ EvReadlink src (inr raw) :: post ->
    let target := relinked (flag verbatimSymlinks options) raw src dest in
    exists occupied rest,
      post = EvExists dest occupied :: rest /\
      if occupied : bool then
        exists removal rest',
          rest = EvUnlink dest removal :: rest' /\
          match removal with
          | Some e => rest' = [] /\ outcome r = Thrown e
          | None => link_created target dest rest'
          end
      else link_created target dest rest.

(** The run starts by reading the unfollowed status of [src]; when that
    says link and [dereference] is off, nothing afterwards copies content;
    and with [dereference] off no call at any depth looks through a link. *)
Definition classified_by_lstat (src dest : string)
    (options : option CpSyncOptions) (d : Fs) (r : Ran Fs unit) : Prop :=
  (exists rest,
     events r = EvCall src dest options :: EvLstat src (lstatSync d src) :: rest /\
     (forall st,
        lstatSync d src = inr st ->
        isSymbolicLink st = true ->
        flag dereference options = false ->
        Forall (fun ev => is_content_copy ev = false) rest)) /\
  (flag dereference options = false ->
   Forall (fun ev => is_resolution ev = false) (events r)).

(** Every invocation recorded in the run received [options]; and with
    [recursive] on, the run never executes the [throw] of the polyfill. *)
Definition options_threaded (options : option CpSyncOptions) (r : Ran Fs unit) : Prop :=
  (forall src dest o, In (EvCall src dest o) (events r) -> o = options) /\
  (flag recursive options = true -> forall e, ~ In (EvThrow e) (events r)).

End Statements.

(** ** The public entry point *)

From Stdlib Require Import NArith.

(** The parsed [process.versions.node]: one number per dot-separated
    part, [None] for a part that [Number] turns into [NaN]. *)
Definition NodeVersion : Type := list (option N).

(** [nodeVersion[i]]; a missing index is [undefined], which compares like
    [NaN]: every comparison with a number is false. *)
Definition at_index (nodeVersion : NodeVersion) (i : nat) : option N :=
  match nth_error nodeVersion i with
  | Some x => x
  | None => None
  end.

Definition js_eq (x : option N) (k : N) : bool :=
  match x with Some n => N.eqb n k | None => false end.
Definition js_ge (x : option N) (k : N) : bool :=
  match x with Some n => N.leb k n | None => false end.
Definition js_gt (x : option N) (k : N) : bool :=
  match x with Some n => N.ltb k n | None => false end.

(** cpSync.ts, line 121. *)
Definition hasNativeDereferenceBug (nodeVersion : NodeVersion) : bool :=
  (js_eq (at_index nodeVersion 0) 22 && js_ge (at_index nodeVersion 1) 17)
  || js_gt (at_index nodeVersion 0) 22.

(** cpSync.ts, lines 135-142.  [native] is [fs.cpSync] when the runtime
    has one; what it does is the host's business. *)
Definition cpSync {Fs} {Host : NodeHost Fs}
    (native : option (string -> string -> option CpSyncOptions -> Run Fs unit))
    (nodeVersion : NodeVersion) (fuel : nat)
    (src dest : string) (options : option CpSyncOptions) : Run Fs unit :=
  match native with
  | None => polyfillCpSync fuel src dest options
  | Some fs_cpSync =>
      if hasNativeDereferenceBug nodeVersion && flag dereference options
      then polyfillCpSync fuel src dest options
      else fs_cpSync src dest options
  end.

(** Versions ordered by major, then minor. *)
Definition version_le (major minor major' minor' : N) : Prop :=
  (major < major')%N \/ (major = major' /\ (minor <= minor')%N).

(** ** Statements about whole runs *)

(** The error with which a recorded call failed.  A failing [statSync] is
    a failure of the copy only under [dereference]; without it the one
    [statSync] of the program sits in the [try] of [getSymlinkType]. *)
Definition failure (deref : bool) (ev : Event) : option ErrnoException :=
  match ev with
  | EvLstat _ (inl e) | EvRealpath _ (inl e)
  | EvReadlink _ (inl e) | EvReaddir _ (inl e) => Some e
  | EvStat _ (inl e) => if deref then Some e else None
  | EvMkdirp _ (Some e) | EvUnlink _ (Some e)
  | EvSymlink _ _ _ (Some e) | EvCopyFile _ _ (Some e) => Some e
  | EvThrow e => Some e
  | _ => None
  end.

(** A run throws exactly when one of its calls failed; that call is then
    the last one recorded and its error is the one thrown. *)
Definition stops_at_first_failure {Fs A} (deref : bool) (r : Ran Fs A) : Prop :=
  match outcome r with
  | Thrown e =>
      exists pre ev,
        events r = pre ++ [ev] /\
        failure deref ev = Some e /\
        Forall (fun ev' => failure deref ev' = None) pre
  | _ => Forall (fun ev' => failure deref ev' = None) (events r)
  end.

(** [erase ev]: the call [ev] without the options an invocation carried. *)
Definition erase (ev : Event) : Event :=
  match ev with
  | EvCall src dest _ => EvCall src dest None
  | _ => ev
  end.

(** Two runs that end alike, leave the same disk and make the same calls. *)
Definition same_run {Fs A} (r r' : Ran Fs A) : Prop :=
  outcome r = outcome r' /\
  disk r = disk r' /\
  map erase (events r) = map erase (events r').

(** Two options records the program cannot tell apart: the same
    [recursive] and [dereference], and the same [verbatimSymlinks] unless
    [dereference] is on. *)
Definition same_flags (o o' : option CpSyncOptions) : Prop :=
  flag recursive o = flag recursive o' /\
  flag dereference o = flag dereference o' /\
  (flag dereference o = true \/ flag verbatimSymlinks o = flag verbatimSymlinks o').

Section TreeStatements.
Context {Fs : Type} {Host : NodeHost Fs}.


(** [Mirrored src dest s t]: [s] and [t] are [src] and [dest] joined with
    the same entry names. *)
Inductive Mirrored (src dest : string) : string -> string -> Prop :=
  | Mirrored_here : Mirrored src dest src dest
  | Mirrored_join s t entry :
      Mirrored src dest s t ->
      Mirrored src dest (path_join s entry) (path_join t entry).


(** Every invocation, byte copy, link read and link creation pairs a
    source path with the destination path of the same entry names. *)
Definition mirrors (src dest : string) (ev : Event) : Prop :=
  match ev with
  | EvCall s t _ => Mirrored src dest s t
  | EvCopyFile s t _ => Mirrored src dest s t
  | EvLstat s _ | EvReadlink s _ | EvReaddir s _ => exists t, Mirrored src dest s t
  | EvSymlink _ t _ _ | EvUnlink t _ => exists s, Mirrored src dest s t
  | _ => True
  end.

(** A link is created as a file link or a directory link, never as a
    junction, and off Windows always as a file link. *)
Definition link_type_ok (ev : Event) : Prop :=
  match ev with
  | EvSymlink _ _ type _ =>
      type <> type_junction /\
      ((platform =? "win32")%string = false -> type = type_file)
  | _ => True
  end.

End TreeStatements.

(** ** The chunked byte copier of [copyFileSync.ts]

    [chunkedCopyFileSync] works on file descriptors.  Its host is the
    descriptor part of [fs]; content is a string of bytes. *)

(** The first [n] bytes of [s], and what follows them. *)
Fixpoint take (n : nat) (s : string) {struct s} : string :=
  match s with
  | EmptyString => EmptyString
  | String c s' =>
      match n with
      | O => EmptyString
      | S n' => String c (take n' s')
      end
  end.

Fixpoint drop (n : nat) (s : string) {struct s} : string :=
  match s with
  | EmptyString => EmptyString
  | String c s' =>
      match n with
      | O => s
      | S n' => drop n' s'
      end
  end.

(** [n] zero bytes. *)
Fixpoint zeros (n : nat) : string :=
  match n with
  | O => EmptyString
  | S n' => String Ascii.zero (zeros n')
  end.

(** [bytes] stored into [buffer] from index [offset] on. *)
Definition overlay (buffer : string) (offset : nat) (bytes : string) : string :=
  (take offset buffer ++ bytes ++ drop (offset + String.length bytes) buffer)%string.

Module Fd.

Inductive FdCall : Type :=
  | Open (path flags : string) (r : ErrnoException + nat)
  | Read (fd length position : nat) (r : ErrnoException + string)
  | Write (fd : nat) (bytes : string) (r : ErrnoException + nat)
  | Close (fd : nat) (r : option ErrnoException).

(** [readSync] gives the bytes it read and [writeSync] the number of
    bytes it wrote; [allocBuffer n] is [Buffer.alloc(n)] or, on a runtime
    without it, [new Buffer(n)], whose content is whatever memory held. *)
Class FdHost (St : Type) : Type := {
  openSync : St -> string -> string -> (ErrnoException + nat) * St;
  readSync : St -> nat -> nat -> nat -> (ErrnoException + string) * St;
  writeSync : St -> nat -> string -> (ErrnoException + nat) * St;
  closeSync : St -> nat -> option ErrnoException * St;
  allocBuffer : nat -> string
}.

Record Done (St A : Type) : Type := mkDone {
  result : Outcome A;
  state : St;
  calls : list FdCall
}.

Definition IO (St A : Type) : Type := St -> Done St A.

Section Monad.
Context {St : Type}.

Definition ret {A} (a : A) : IO St A := fun s => mkDone (Returned a) s [].

Definition bind {A B} (m : IO St A) (k : A -> IO St B) : IO St B :=
  fun s =>
    let r := m s in
    match result r with
    | Returned a =>
        let r' := k a (state r) in
        mkDone (result r') (state r') (calls r ++ calls r')
    | Thrown e => mkDone (Thrown e) (state r) (calls r)
    | OutOfFuel => mkDone OutOfFuel (state r) (calls r)
    end.

(** [try { body } finally { finalizer }]: the finalizer runs however the
    body ended, and an error it throws replaces the body's. *)
Definition try_finally {A} (body : IO St A) (finalizer : IO St unit) : IO St A :=
  fun s =>
    let r := body s in
    match result r with
    | OutOfFuel => r
    | _ =>
        let f := finalizer (state r) in
        mkDone
          match result f with
          | Returned _ => result r
          | Thrown e => Thrown e
          | OutOfFuel => OutOfFuel
          end
          (state f) (calls r ++ calls f)
    end.

Definition out_of_fuel {A} : IO St A := fun s => mkDone OutOfFuel s [].

Definition call {A} (act : St -> (ErrnoException + A) * St)
    (ev : ErrnoException + A -> FdCall) : IO St A :=
  fun s =>
    match act s with
    | (inl e, s') => mkDone (Thrown e) s' [ev (inl e)]
    | (inr a, s') => mkDone (Returned a) s' [ev (inr a)]
    end.
End Monad.

Declare Scope io_scope.
Delimit Scope io_scope with io.
Notation "x <- m ;; k" := (bind m (fun x => k))
  (at level 100, m at next level, right associativity) : io_scope.
Notation "m ;; k" := (bind m (fun _ => k))
  (at level 100, right associativity) : io_scope.
Local Open Scope io_scope.

(** [const BUFFER_SIZE = 65536] *)
#[warnings="-abstract-large-number"]
Definition BUFFER_SIZE : nat := 65536.

Section Program.
Context {St : Type} {Host : FdHost St}.

Definition fs_openSync (path flags : string) : IO St nat :=
  call (fun s => openSync s path flags) (Open path flags).

(** [fs.readSync(fd, buffer, offset, length, position)]: the bytes read
    land in the buffer; the value is their number. *)
Definition fs_readSync (fd : nat) (buffer : string) (offset length position : nat)
    : IO St (string * nat) :=
  fun s =>
    match readSync s fd length position with
    | (inl e, s') => mkDone (Thrown e) s' [Read fd length position (inl e)]
    | (inr bytes, s') =>
        mkDone (Returned (overlay buffer offset bytes, String.length bytes)) s'
               [Read fd length position (inr bytes)]
    end.

(** [fs.writeSync(fd, buffer, offset, length)]: writes at the current
    position of the descriptor. *)
Definition fs_writeSync (fd : nat) (buffer : string) (offset length : nat) : IO St nat :=
  let bytes := take length (drop offset buffer) in
  call (fun s => writeSync s fd bytes) (Write fd bytes).

Definition fs_closeSync (fd : nat) : IO St unit :=
  fun s =>
    match closeSync s fd with
    | (Some e, s') => mkDone (Thrown e) s' [Close fd (Some e)]
    | (None, s') => mkDone (Returned tt) s' [Close fd None]
    end.

(** [chunkedCopyFileSync], the [while] loop (index.ts, lines 56-60),
    entered with the result of the read before it. *)
Fixpoint copy_chunks (fuel : nat) (srcFd destFd : nat) (buffer : string)
    (pos bytesRead : nat) : IO St unit :=
  if (0 <? bytesRead)%nat then
    match fuel with
    | O => out_of_fuel
    | S fuel' =>
        fs_writeSync destFd buffer 0 bytesRead ;;
        let pos := pos + bytesRead in
        rd <- fs_readSync srcFd buffer 0 BUFFER_SIZE pos ;;
        let (buffer, bytesRead) := rd : string * nat in
        copy_chunks fuel' srcFd destFd buffer pos bytesRead
    end
  else ret tt.

(** A read followed by the loop: what [chunkedCopyFileSync] does between
    the opens and the closes, and what the loop does after each write. *)
Definition read_then_copy (fuel srcFd destFd : nat) (buffer : string) (pos : nat)
    : IO St unit :=
  rd <- fs_readSync srcFd buffer 0 BUFFER_SIZE pos ;;
  let (buffer, bytesRead) := rd : string * nat in
  copy_chunks fuel srcFd destFd buffer pos bytesRead.

(** [chunkedCopyFileSync] (index.ts, lines 47-67). *)
Definition chunkedCopyFileSync (fuel : nat) (src dest : string) : IO St unit :=
  srcFd <- fs_openSync src "r" ;;
  try_finally
    (destFd <- fs_openSync dest "w" ;;
     try_finally
       (let buffer := allocBuffer BUFFER_SIZE in
        let pos := 0 in
        rd <- fs_readSync srcFd buffer 0 BUFFER_SIZE pos ;;
        let (buffer, bytesRead) := rd : string * nat in
        copy_chunks fuel srcFd destFd buffer pos bytesRead)
       (fs_closeSync destFd))
    (fs_closeSync srcFd).

(** What the calls between the two opens and the two closes look like:
    reads of [BUFFER_SIZE] bytes from [srcFd] at consecutive positions from
    [pos] on, each non-empty one followed by the write of exactly the
    bytes read to [destFd], up to an empty read or the first throwing
    call; the last component is how such a sequence ends. *)
Inductive Chunks (srcFd destFd : nat) : nat -> list FdCall -> Outcome unit -> Prop :=
  | Chunks_read_throws pos e :
      Chunks srcFd destFd pos [Read srcFd BUFFER_SIZE pos (inl e)] (Thrown e)
  | Chunks_end pos :
      Chunks srcFd destFd pos [Read srcFd BUFFER_SIZE pos (inr "")] (Returned tt)
  | Chunks_write_throws pos bytes e :
      bytes <> ""%string ->
      Chunks srcFd destFd pos
        [Read srcFd BUFFER_SIZE pos (inr bytes); Write destFd bytes (inl e)] (Thrown e)
  | Chunks_step pos bytes written rest o :
      bytes <> ""%string ->
      Chunks srcFd destFd (pos + String.length bytes) rest o ->
      Chunks srcFd destFd pos
        (Read srcFd BUFFER_SIZE pos (inr bytes) :: Write destFd bytes (inr written) :: rest) o.

(** How a pair of [finally] blocks turns the end of the body into the
    end of the call: a throwing close wins, the outer one first. *)
Definition after_closing (body : Outcome unit) (inner outer : option ErrnoException)
    : Outcome unit :=
  match outer, inner with
  | Some e, _ => Thrown e
  | None, Some e => Thrown e
  | None, None => body
  end.

(** The three shapes of a finished call on the state [s]: the source
    cannot be opened and nothing else is called; the destination cannot be
    opened and the source is closed again; or both are opened, chunks are
    copied, and the destination and then the source are closed. *)
Definition closes_what_it_opens (src dest : string) (s : St) (r : Done St unit) : Prop :=
  (exists e,
     openSync s src "r" = (inl e, state r) /\
     calls r = [Open src "r" (inl e)] /\ result r = Thrown e) \/
  (exists srcFd e c,
     calls r = [Open src "r" (inr srcFd); Open dest "w" (inl e); Close srcFd c] /\
     result r = after_closing (Thrown e) None c) \/
  (exists srcFd destFd body o c1 c2,
     calls r = Open src "r" (inr srcFd) :: Open dest "w" (inr destFd) :: body
               ++ [Close destFd c1; Close srcFd c2] /\
     Chunks srcFd destFd 0 body o /\
     result r = after_closing o c1 c2).

End Program.

(** The bytes the reads of a call returned and the bytes its writes were
    given, each in order. *)
Fixpoint bytes_read (cs : list FdCall) : string :=
  match cs with
  | Read _ _ _ (inr bytes) :: cs' => (bytes ++ bytes_read cs')%string
  | _ :: cs' => bytes_read cs'
  | [] => ""%string
  end.

Fixpoint bytes_written (cs : list FdCall) : string :=
  match cs with
  | Write _ bytes _ :: cs' => (bytes ++ bytes_written cs')%string
  | _ :: cs' => bytes_written cs'
  | [] => ""%string
  end.

End Fd.

(** ** Descriptors on the in-memory host *)

Module MemFd.
Import MemFs Fd.
Local Open Scope string_scope.

Record Descriptor : Type := {
  at_path : list string;      (* the file the descriptor was opened on *)
  writable : bool;
  offset : nat                (* the position of the next write *)
}.

Record FdDisk : Type := {
  files : Disk;
  table : list (nat * Descriptor)
}.

Fixpoint next_fd (t : list (nat * Descriptor)) : nat :=
  match t with
  | [] => 3
  | (fd, _) :: t' => Nat.max (S fd) (next_fd t')
  end.

Fixpoint find_fd (t : list (nat * Descriptor)) (fd : nat) : option Descriptor :=
  match t with
  | [] => None
  | (k, desc) :: t' => if (k =? fd)%nat then Some desc else find_fd t' fd
  end.

Fixpoint drop_fd (t : list (nat * Descriptor)) (fd : nat) : list (nat * Descriptor) :=
  match t with
  | [] => []
  | (k, desc) :: t' => if (k =? fd)%nat then t' else (k, desc) :: drop_fd t' fd
  end.

Fixpoint set_fd (t : list (nat * Descriptor)) (fd : nat) (desc : Descriptor)
    : list (nat * Descriptor) :=
  match t with
  | [] => []
  | (k, old) :: t' => if (k =? fd)%nat then (k, desc) :: t' else (k, old) :: set_fd t' fd desc
  end.

(** The error of a call on a descriptor, which shows no path. *)
Definition errno_fd (c what syscall : string) : ErrnoException :=
  {| message := c ++ ": " ++ what ++ ", " ++ syscall; code := c |}.

Definition EBADF := errno_fd "EBADF" "bad file descriptor".
Definition EISDIR_fd := errno_fd "EISDIR" "illegal operation on a directory".

Definition opened (s : FdDisk) (fs : Disk) (q : list string) (w : bool)
    : (ErrnoException + nat) * FdDisk :=
  let fd := next_fd (table s) in
  (inr fd,
   {| files := fs;
      table := (fd, {| at_path := q; writable := w; offset := 0 |}) :: table s |}).

(** [open(2)] with flags ['r'] (the file must exist) and ['w'] (the file
    is created or truncated); the path is followed through links. *)
Definition mem_open (s : FdDisk) (path flags : string) : (ErrnoException + nat) * FdDisk :=
  if flags =? "r" then
    match lookup (files s) true "open" path with
    | inl e => (inl e, s)
    | inr (_, None) => (inl (ENOENT "open" path), s)
    | inr (q, Some _) => opened s (files s) q false
    end
  else if flags =? "w" then
    match lookup (files s) true "open" path with
    | inl e => (inl e, s)
    | inr (q, None) => opened s (put_at (files s) q (IFile "")) q true
    | inr (q, Some (IFile _)) => opened s (put_at (files s) q (IFile "")) q true
    | inr (_, Some IDir) => (inl (EISDIR_sys "open" path), s)
    | inr (_, Some _) => (inl (EINVAL "open" path), s)
    end
  else (inl (EINVAL "open" path), s).

(** [pread(2)]: up to [length] bytes from [position]. *)
Definition mem_read (s : FdDisk) (fd length position : nat)
    : (ErrnoException + string) * FdDisk :=
  match find_fd (table s) fd with
  | None => (inl (EBADF "read"), s)
  | Some desc =>
      match inode_at (files s) (at_path desc) with
      | Some (IFile data) => (inr (take length (drop position data)), s)
      | Some IDir => (inl (EISDIR_fd "read"), s)
      | _ => (inr "", s)
      end
  end.

(** [data] with [bytes] written at [off], the gap filled with zeros. *)
Definition splice (data : string) (off : nat) (bytes : string) : string :=
  take off data ++ zeros (off - String.length data) ++ bytes
  ++ drop (off + String.length bytes) data.

(** [write(2)]: all of [bytes] at the position of the descriptor, which
    moves on by their number. *)
Definition mem_write (s : FdDisk) (fd : nat) (bytes : string)
    : (ErrnoException + nat) * FdDisk :=
  match find_fd (table s) fd with
  | None => (inl (EBADF "write"), s)
  | Some desc =>
      match writable desc, inode_at (files s) (at_path desc) with
      | true, Some (IFile data) =>
          (inr (String.length bytes),
           {| files := put_at (files s) (at_path desc)
                         (IFile (splice data (offset desc) bytes));
              table := set_fd (table s) fd
                         {| at_path := at_path desc; writable := true;
                            offset := offset desc + String.length bytes |} |})
      | _, _ => (inl (EBADF "write"), s)
      end
  end.

Definition mem_close (s : FdDisk) (fd : nat) : option ErrnoException * FdDisk :=
  match find_fd (table s) fd with
  | None => (Some (EBADF "close"), s)
  | Some _ => (None, {| files := files s; table := drop_fd (table s) fd |})
  end.

(** The host; [fresh n] is what a new buffer of [n] bytes holds. *)
Definition host (fresh : nat -> string) : FdHost FdDisk := {|
  openSync := mem_open;
  readSync := mem_read;
  writeSync := mem_write;
  closeSync := mem_close;
  allocBuffer := fresh
|}.

(** [copy fresh fuel src dest s]: a run of the chunked copier. *)
Definition copy (fresh : nat -> string) := @chunkedCopyFileSync FdDisk (host fresh).

(** What ['w'] can open: a name that is free, or a regular file. *)
Definition writable_target (o : option Inode) : bool :=
  match o with
  | None | Some (IFile _) => true
  | _ => false
  end.

(** The disk in the middle of a copy from the file at [qs], open as
    [fd1], to the file at [qd], open as [fd2], [written] being the bytes
    that have reached the destination. *)
Definition midway (F : Disk) (T : list (nat * Descriptor)) (qs qd : list string)
    (fd1 fd2 : nat) (written : string) : FdDisk :=
  {| files := put_at F qd (IFile written);
     table := (fd2, {| at_path := qd; writable := true;
                       offset := String.length written |})
              :: (fd1, {| at_path := qs; writable := false; offset := 0 |}) :: T |}.

(** A disk with no descriptor open. *)
Definition closed (d : Disk) : FdDisk := {| files := d; table := [] |}.

End MemFd.

(** ** More scenarios *)

Module Runtime.
Import MemFs.

(** Parsed [process.versions.node] of some releases. *)
Definition v20_11_1 : NodeVersion := [Some 20; Some 11; Some 1]%N.
Definition v22_16_0 : NodeVersion := [Some 22; Some 16; Some 0]%N.
Definition v22_17_0 : NodeVersion := [Some 22; Some 17; Some 0]%N.
Definition v23_0_0 : NodeVersion := [Some 23; Some 0; Some 0]%N.

(** A native [fs.cpSync] that ignores [dereference], as the affected
    releases do: it links [dest] to [src]. *)
Definition linking_native (src dest : string) (options : option CpSyncOptions)
    : Run Disk unit :=
  @fs_symlinkSync Disk linux src dest type_file.

(** Options with [dereference] and [verbatimSymlinks] both on. *)
Definition dereferencing_verbatim : option CpSyncOptions :=
  Some {| recursive := Some true; verbatimSymlinks := Some true; dereference := Some true |}.


(** A fresh buffer that is not zeroed. *)
Definition dirty (n : nat) : string := "stale bytes of an earlier use"%string.

End Runtime.

(** ** Stepping through a run *)

Section Steps.
Context {Fs : Type} {Host : NodeHost Fs}.

Lemma after_nil {A} (r : Ran Fs A) : after [] r = r.
Proof. destruct r; reflexivity. Qed.

Lemma after_after {A} e1 e2 (r : Ran Fs A) :
  after e1 (after e2 r) = after (e1 ++ e2) r.
Proof. unfold after; simpl. now rewrite app_assoc. Qed.

Lemma bind_ret {A B} (a : A) (k : A -> Run Fs B) d : bind (ret a) k d = k a d.
Proof. unfold bind, ret; simpl. destruct (k a d); reflexivity. Qed.

Lemma bind_bind {A B C} (m : Run Fs A) (f : A -> Run Fs B) (g : B -> Run Fs C) d :
  bind (bind m f) g d = bind m (fun a => bind (f a) g) d.
Proof.
  unfold bind. destruct (outcome (m d)) as [a | e |]; simpl; try reflexivity.
  destruct (outcome (f a (disk (m d)))); simpl; try reflexivity.
  now rewrite app_assoc.
Qed.

Lemma bind_note {B} ev (k : unit -> Run Fs B) d :
  bind (note ev) k d = after [ev] (k tt d).
Proof. reflexivity. Qed.

Lemma bind_throw {A B} e (k : A -> Run Fs B) d :
  bind (throw e) k d = mkRan (Thrown e) d [EvThrow e].
Proof. reflexivity. Qed.

Lemma bind_exists {B} p (k : bool -> Run Fs B) d :
  bind (fs_existsSync p) k d =
  after [EvExists p (existsSync d p)] (k (existsSync d p) d).
Proof. reflexivity. Qed.

Lemma bind_query {A B} (ask : Fs -> ErrnoException + A) ev (k : A -> Run Fs B) d :
  bind (query ask ev) k d =
  match ask d with
  | inl e => mkRan (Thrown e) d [ev (inl e)]
  | inr a => after [ev (inr a)] (k a d)
  end.
Proof. unfold bind, query. destruct (ask d); reflexivity. Qed.

Lemma bind_mutate {B} (act : Fs -> option ErrnoException * Fs) ev
    (k : unit -> Run Fs B) d :
  bind (mutate act ev) k d =
  match act d with
  | (Some e, d') => mkRan (Thrown e) d' [ev (Some e)]
  | (None, d') => after [ev None] (k tt d')
  end.
Proof. unfold bind, mutate. destruct (act d) as [[e|] d']; reflexivity. Qed.

(** What [getSymlinkType] amounts to. *)
Lemma getSymlinkType_run (t s : string) (d : Fs) :
  getSymlinkType t s d =
  if (platform =? "win32")%string then
    mkRan
      (Returned
         match statSync d (hint_target t s) with
         | inr st => if isDirectory st then type_dir else type_file
         | inl _ => type_file
         end)
      d [EvStat (hint_target t s) (statSync d (hint_target t s))]
  else mkRan (Returned type_file) d [].
Proof.
  unfold getSymlinkType, hint_target.
  destruct (platform =? "win32")%string; simpl; [| reflexivity].
  unfold try_catch, bind, fs_statSync, query, ret.
  destruct (statSync d _) as [e | st]; reflexivity.
Qed.

Lemma bind_getSymlinkType {B} t s (k : SymlinkType -> Run Fs B) d :
  bind (getSymlinkType t s) k d =
  if (platform =? "win32")%string then
    after [EvStat (hint_target t s) (statSync d (hint_target t s))]
      (k match statSync d (hint_target t s) with
         | inr st => if isDirectory st then type_dir else type_file
         | inl _ => type_file
         end d)
  else k type_file d.
Proof.
  unfold bind at 1. rewrite getSymlinkType_run.
  destruct (platform =? "win32")%string; simpl; [reflexivity | apply after_nil].
Qed.

Lemma negb_truthy (s : string) : negb (truthy s) = (s =? "")%string.
Proof. unfold truthy. apply negb_involutive. Qed.

Lemma isDirectory_only (st : Stats) :
  isDirectory st = true -> isSymbolicLink st = false /\ isFile st = false.
Proof. destruct st as [[]]; simpl; intros H; try discriminate H; auto. Qed.

(** *** Properties of every recorded call *)

Lemma Always_ret {A} P (a : A) : Always P (@ret Fs A a).
Proof. intros d; constructor. Qed.

Lemma Always_bind {A B} P (m : Run Fs A) (k : A -> Run Fs B) :
  Always P m -> (forall a, Always P (k a)) -> Always P (bind m k).
Proof.
  intros Hm Hk d. unfold bind. specialize (Hm d).
  destruct (outcome (m d)) as [a| e |]; simpl; auto.
  apply Forall_app; split; [assumption | apply Hk].
Qed.

Lemma Always_note P ev : P ev -> Always P (@note Fs ev).
Proof. intros H d; simpl; auto. Qed.

Lemma Always_out_of_fuel {A} P : Always P (@out_of_fuel Fs A).
Proof. intros d; constructor. Qed.

Lemma Always_throw {A} P e : P (EvThrow e) -> Always P (@throw Fs A e).
Proof. intros H d; simpl; auto. Qed.

Lemma Always_query {A} P (ask : Fs -> ErrnoException + A) ev :
  (forall r, P (ev r)) -> Always P (query ask ev).
Proof. intros H d. unfold query. destruct (ask d); simpl; auto. Qed.

Lemma Always_mutate P (act : Fs -> option ErrnoException * Fs) ev :
  (forall r, P (ev r)) -> Always P (mutate act ev).
Proof. intros H d. unfold mutate. destruct (act d) as [[e|] d']; simpl; auto. Qed.

Lemma Always_exists P p : (forall b, P (EvExists p b)) -> Always P (fs_existsSync p).
Proof. intros H d; simpl; auto. Qed.

Lemma Always_when P (c : bool) (m : Run Fs unit) :
  (c = true -> Always P m) -> Always P (when c m).
Proof. destruct c; simpl; intros H; [auto | apply Always_ret]. Qed.

Lemma Always_try_catch {A} P (body : Run Fs A) handler :
  Always P body -> (forall e, Always P (handler e)) -> Always P (try_catch body handler).
Proof.
  intros Hb Hh d. unfold try_catch. specialize (Hb d).
  destruct (outcome (body d)) as [a| e |]; simpl; auto.
  apply Forall_app; split; [assumption | apply Hh].
Qed.

Lemma Always_for_each {A} P (body : A -> Run Fs unit) xs :
  (forall x, Always P (body x)) -> Always P (for_each body xs).
Proof.
  intros H. induction xs as [| x xs IH]; simpl.
  - apply Always_ret.
  - apply Always_bind; auto.
Qed.

Lemma Always_and_not_exists P p :
  (forall b, P (EvExists p b)) -> Always P (and_not_exists p).
Proof.
  intros H. unfold and_not_exists. destruct (truthy p).
  - apply Always_bind; [apply Always_exists; auto | intros; apply Always_ret].
  - apply Always_ret.
Qed.

Lemma Always_getSymlinkType P t s :
  ((platform =? "win32")%string = true -> forall p r, P (EvStat p r)) ->
  Always P (getSymlinkType t s).
Proof.
  intros H d. rewrite getSymlinkType_run.
  destruct (platform =? "win32")%string; simpl; auto.
Qed.

(** The calls an invocation may make, by the options it was given: links
    are resolved only under [dereference], read and created only without
    it, and the polyfill throws only without [recursive]. *)
Lemma polyfillCpSync_calls (P : Event -> Prop) (options : option CpSyncOptions) :
  (forall s t, P (EvCall s t options)) ->
  (forall p r, P (EvLstat p r)) ->
  (forall p r, P (EvExists p r)) ->
  (forall p r, P (EvMkdirp p r)) ->
  (forall s t r, P (EvCopyFile s t r)) ->
  (forall p r, P (EvReaddir p r)) ->
  (flag dereference options = true ->
   (forall p r, P (EvRealpath p r)) /\ (forall p r, P (EvStat p r))) ->
  (flag dereference options = false ->
   (forall p r, P (EvReadlink p r)) /\ (forall p r, P (EvUnlink p r)) /\
   (forall t p ty r, P (EvSymlink t p ty r)) /\
   ((platform =? "win32")%string = true -> forall p r, P (EvStat p r))) ->
  (flag recursive options = false -> forall e, P (EvThrow e)) ->
  forall n src dest, Always P (polyfillCpSync n src dest options).
Proof.
  intros Hcall Hlstat Hex Hmk Hcp Hrd Hderef Hlink Hthrow.
  induction n as [| n IH]; intros src dest; cbn [polyfillCpSync].
  - apply Always_out_of_fuel.
  - apply Always_bind; [apply Always_note; auto | intros _].
    apply Always_bind; [apply Always_query; auto | intros lstat].
    destruct (isSymbolicLink lstat).
    + destruct (flag dereference options) eqn:Hd.
      * destruct (Hderef eq_refl) as [Hrp Hst].
        apply Always_bind; [apply Always_query; auto | intros realPath].
        apply Always_bind; [apply Always_query; auto | intros realStat].
        destruct (isDirectory realStat); [apply IH |].
        apply Always_bind; [apply Always_and_not_exists; auto | intros missing].
        apply Always_bind; [apply Always_when; intros _; apply Always_mutate; auto | intros _].
        apply Always_mutate; auto.
      * destruct (Hlink eq_refl) as (Hrl & Hul & Hsl & Hhint).
        apply Always_bind; [apply Always_and_not_exists; auto | intros missing].
        apply Always_bind; [apply Always_when; intros _; apply Always_mutate; auto | intros _].
        apply Always_bind; [apply Always_query; auto | intros linkTarget].
        apply Always_bind; [apply Always_exists; auto | intros occupied].
        apply Always_bind; [apply Always_when; intros _; apply Always_mutate; auto | intros _].
        apply Always_bind; [apply Always_getSymlinkType; auto | intros symlinkType].
        apply Always_mutate; auto.
    + destruct (isFile lstat).
      * apply Always_bind; [apply Always_and_not_exists; auto | intros missing].
        apply Always_bind; [apply Always_when; intros _; apply Always_mutate; auto | intros _].
        apply Always_mutate; auto.
      * destruct (isDirectory lstat); [| apply Always_ret].
        apply Always_bind.
        { apply Always_when. intros Hr. apply Always_throw. apply Hthrow.
          now apply negb_true_iff in Hr. }
        intros _.
        apply Always_bind.
        { apply Always_bind; [apply Always_exists; auto | intros; apply Always_ret]. }
        intros absent.
        apply Always_bind; [apply Always_when; intros _; apply Always_mutate; auto | intros _].
        apply Always_bind; [apply Always_query; auto | intros entries].
        apply Always_for_each. intros entry. apply IH.
Qed.

End Steps.

(** [exec] runs the head of a bind chain applied to a disk, splitting on
    the result of each host call it meets. *)
Ltac exec_step :=
  match goal with
  | |- context [bind (bind ?m ?f) ?g ?d] => rewrite (bind_bind m f g d)
  | |- context [bind (ret ?a) ?k ?d] => rewrite (bind_ret a k d)
  | |- context [bind (note ?ev) ?k ?d] => rewrite (bind_note ev k d)
  | |- context [bind (throw ?e) ?k ?d] => rewrite (bind_throw e k d)
  | |- context [bind (fs_existsSync ?p) ?k ?d] =>
      rewrite (bind_exists p k d); destruct (existsSync d p) eqn:?
  | |- context [bind (query ?ask ?ev) ?k ?d] =>
      rewrite (bind_query ask ev k d); cbv beta;
      match goal with
      | |- context [match ?x with inl _ => _ | inr _ => _ end] => destruct x eqn:?
      end
  | |- context [bind (mutate ?act ?ev) ?k ?d] =>
      rewrite (bind_mutate act ev k d); cbv beta;
      match goal with
      | |- context [match ?x with pair _ _ => _ end] => destruct x as [[?|] ?] eqn:?
      end
  | |- context [bind (getSymlinkType ?t ?s) ?k ?d] =>
      rewrite (bind_getSymlinkType t s k d);
      destruct (platform =? "win32")%string eqn:?
  | |- context [mutate ?act ?ev ?d] =>
      unfold mutate; cbv beta;
      match goal with
      | |- context [match ?x with pair _ _ => _ end] => destruct x as [[?|] ?] eqn:?
      end
  end.

Ltac exec :=
  repeat (cbv beta;
          unfold and_not_exists, when, fs_lstatSync, fs_statSync,
            fs_realpathSync, fs_readlinkSync, fs_readdirSync, mkdirp_sync,
            fs_unlinkSync, fs_symlinkSync, copy_file_sync;
          cbn [negb];
          first [ exec_step
                | match goal with
                  | |- context [if truthy ?p then _ else _] => destruct (truthy p) eqn:?
                  end ]).

(** The first two steps of an invocation whose [lstatSync] succeeds. *)
Ltac enter Hl :=
  cbn [polyfillCpSync]; rewrite bind_note; unfold fs_lstatSync;
  rewrite bind_query, Hl.

(** [locate H] finds the place of a call in a recorded list of calls. *)
Ltac locate H :=
  repeat match type of H with
  | _ :: _ = ?pre ++ _ :: _ =>
      destruct pre as [| ? pre]; simpl in H; [ try discriminate H | injection H as ? H ]
  | [] = ?pre ++ _ :: _ => destruct pre; discriminate H
  end.

(** ** The claims *)

Section Claims.
Context {Fs : Type} {Host : NodeHost Fs}.

(** C2. A source whose unfollowed status is a directory, copied without
    [recursive], makes the call throw the [EISDIR] error naming [src]; the
    disk is the one the call started on and the only calls made are the
    entry, the [lstatSync] and the [throw]: no directory is created and no
    entry copied. *)
Theorem directory_without_recursive_is_rejected
    (n : nat) (src dest : string) (options : option CpSyncOptions) (d : Fs) (st : Stats) :
  lstatSync d src = inr st ->
  isDirectory st = true ->
  flag recursive options = false ->
  let r := polyfillCpSync (S n) src dest options d in
  outcome r =
    Thrown {| message := "EISDIR: illegal operation on a directory, read '" ++ src ++ "'";
              code := "EISDIR" |} /\
  disk r = d /\
  events r = [EvCall src dest options; EvLstat src (inr st); EvThrow (EISDIR src)] /\
  Forall (fun ev => is_mutation ev = false) (events r).
Proof.
  intros Hl Hdir Hrec r. subst r.
  destruct (isDirectory_only _ Hdir) as [Hlnk Hfile].
  enter Hl. rewrite Hlnk, Hfile, Hdir, Hrec. exec.
  cbn. repeat split. repeat constructor.
Qed.

(** C5. When the source does not exist, that is when [lstatSync] throws
    an [ENOENT] error for it, the call throws that error, the disk is
    unchanged and no call besides the entry and the [lstatSync] is made. *)
Theorem missing_source_fails_with_ENOENT
    (n : nat) (src dest : string) (options : option CpSyncOptions) (d : Fs)
    (e : ErrnoException) :
  lstatSync d src = inl e ->
  code e = "ENOENT"%string ->
  let r := polyfillCpSync (S n) src dest options d in
  (exists e', outcome r = Thrown e' /\ code e' = "ENOENT"%string) /\
  disk r = d /\
  events r = [EvCall src dest options; EvLstat src (inl e)] /\
  Forall (fun ev => is_mutation ev = false) (events r).
Proof.
  intros Hl Hcode r. subst r. enter Hl. cbn.
  repeat split; [exists e; auto | repeat constructor].
Qed.

(** C10. A source whose unfollowed status is neither a link, nor a
    regular file, nor a directory is skipped: the call returns, the disk
    is unchanged and nothing is called after the [lstatSync]. *)
Theorem other_file_types_are_skipped
    (n : nat) (src dest : string) (options : option CpSyncOptions) (d : Fs) (st : Stats) :
  lstatSync d src = inr st ->
  isSymbolicLink st = false ->
  isFile st = false ->
  isDirectory st = false ->
  let r := polyfillCpSync (S n) src dest options d in
  outcome r = Returned tt /\
  disk r = d /\
  events r = [EvCall src dest options; EvLstat src (inr st)] /\
  Forall (fun ev => is_mutation ev = false) (events r).
Proof.
  intros Hl Hlnk Hfile Hdir r. subst r.
  enter Hl. rewrite Hlnk, Hfile, Hdir. cbn.
  repeat split. repeat constructor.
Qed.

(** C7. [getSymlinkType] always returns and leaves the disk alone.  Off
    Windows it returns ['file'] without calling the host.  On Windows it
    makes one [statSync] call, on the raw target taken relative to the
    directory of the link source unless absolute, and returns ['dir'] when
    that call reports a directory and ['file'] otherwise, a throwing call
    included. *)
Theorem getSymlinkType_never_throws (targetPath srcPath : string) (d : Fs) :
  let r := getSymlinkType targetPath srcPath d in
  let resolvedTarget := hint_target targetPath srcPath in
  disk r = d /\
  if (platform =? "win32")%string then
    events r = [EvStat resolvedTarget (statSync d resolvedTarget)] /\
    outcome r =
      Returned match statSync d resolvedTarget with
               | inr stat => if isDirectory stat then type_dir else type_file
               | inl _ => type_file
               end
  else events r = [] /\ outcome r = Returned type_file.
Proof.
  cbv zeta. rewrite getSymlinkType_run.
  destruct (platform =? "win32")%string; cbn; auto.
Qed.

(** C1. For a link copied without [dereference], every link the call
    creates is created at [dest] with the target the specification
    describes, computed from the raw target read from [src]; and when the
    call returns it has created that link. *)
Theorem link_target_is_relinked
    (n : nat) (src dest : string) (options : option CpSyncOptions) (d : Fs) (st : Stats) :
  lstatSync d src = inr st ->
  isSymbolicLink st = true ->
  flag dereference options = false ->
  writes_relinked_target src dest options (polyfillCpSync (S n) src dest options d).
Proof.
  intros Hl Hs Hd. unfold writes_relinked_target.
  enter Hl. rewrite Hs, Hd. exec.
  all: cbn [after events outcome disk app]; split;
    [ intros target p type res Hin | intros Hret; try discriminate Hret ].
  all: try (simpl in Hin; intuition discriminate).
  all: try match goal with
       | Hin : In _ _ |- _ =>
           simpl in Hin; intuition (try discriminate);
           match goal with
           | H : EvSymlink _ _ _ _ = EvSymlink _ _ _ _ |- _ =>
               injection H as <- <- <- <-
           end
       end.
  all: try reflexivity.
  all: match goal with
       | Hr : readlinkSync _ _ = inr ?raw |- _ => exists raw
       end.
  all: unfold relinked; rewrite <- negb_truthy; simpl; try eexists; intuition eauto 12.
Qed.

(** The three lines that copy a file, on the host: the parent of [dest]
    is ensured and the bytes are copied. *)
Lemma copy_after_ensuring_parent (realPath dest : string) (d : Fs) :
  (missing <- and_not_exists (path_dirname dest) ;;
   when missing (mkdirp_sync (path_dirname dest)) ;;
   copy_file_sync realPath dest)%run d
  = ensured_copy realPath dest d.
Proof.
  unfold ensured_copy, and_not_exists, truthy.
  destruct (path_dirname dest =? "")%string; cbn [negb]; exec; reflexivity.
Qed.

(** C3. For a link copied with [dereference], the call resolves the link
    with [realpathSync], classifies the real path with the following
    [statSync], and continues as the tree copy of the real path to the
    same [dest] when that is a directory, and otherwise by ensuring the
    parent of [dest] and copying the bytes of the real path to [dest].  At
    no depth does such a run read, remove or create a link. *)
Theorem dereference_copies_the_target
    (n : nat) (src dest : string) (options : option CpSyncOptions) (d : Fs) (st : Stats) :
  lstatSync d src = inr st ->
  isSymbolicLink st = true ->
  flag dereference options = true ->
  copies_resolved_target n src dest options d st (polyfillCpSync (S n) src dest options d) /\
  Forall (fun ev => is_link_op ev = false)
         (events (polyfillCpSync (S n) src dest options d)).
Proof.
  intros Hl Hs Hd. split.
  - unfold copies_resolved_target.
    enter Hl. rewrite Hs, Hd.
    unfold fs_realpathSync. rewrite bind_query.
    destruct (realpathSync d src) as [e | realPath]; [reflexivity |].
    unfold fs_statSync. rewrite bind_query.
    destruct (statSync d realPath) as [e | realStat]; [reflexivity |].
    destruct (isDirectory realStat); rewrite !after_after;
      [| rewrite copy_after_ensuring_parent]; reflexivity.
  - apply polyfillCpSync_calls; try (intros; reflexivity).
    + intros _. split; intros; reflexivity.
    + intros Hd'. rewrite Hd in Hd'. discriminate Hd'.
Qed.

(** C4, as the code has it.  On the path that keeps the link, [dest] is
    probed with [existsSync] once the raw target is read.  An entry the
    probe reports is unlinked before the link is created; when that unlink
    throws, the error is thrown to the caller and no link is created; with
    no entry reported the link is created without a removal. *)
Theorem link_copy_unlinks_reported_entry
    (n : nat) (src dest : string) (options : option CpSyncOptions) (d : Fs) (st : Stats) :
  lstatSync d src = inr st ->
  isSymbolicLink st = true ->
  flag dereference options = false ->
  removes_reported_entry src dest options (polyfillCpSync (S n) src dest options d).
Proof.
  intros Hl Hs Hd. unfold removes_reported_entry.
  enter Hl. rewrite Hs, Hd. exec.
  all: cbn [after events outcome disk app]; intros pre raw post H; locate H.
  all: injection H as <- <-; cbv zeta.
  all: eexists _, _; split; [reflexivity |]; cbv iota beta.
  all: try (eexists _, _; split; [reflexivity |]; cbv iota beta).
  all: try (split; reflexivity).
  all: unfold link_created, relinked; rewrite <- negb_truthy.
  all: first [ eexists [], _, _; split; [reflexivity | constructor]
             | eexists [_], _, _; split; [reflexivity | repeat constructor] ].
Qed.

(** C6. Every invocation begins by recording the unfollowed status of
    [src].  When that status is a link and [dereference] is off, the rest
    of the invocation neither copies bytes, nor lists a directory, nor
    resolves a path, nor enters a nested invocation; and with [dereference]
    off no call at any depth of the run looks through a link (the status
    read for the Windows type hint apart). *)
Theorem classification_uses_lstat
    (n : nat) (src dest : string) (options : option CpSyncOptions) (d : Fs) :
  classified_by_lstat src dest options d (polyfillCpSync (S n) src dest options d).
Proof.
  split.
  - cbn [polyfillCpSync]. rewrite bind_note. unfold fs_lstatSync. rewrite bind_query.
    destruct (lstatSync d src) as [e | lstat] eqn:Hl.
    + exists []. split; [reflexivity | intros st Hst; discriminate Hst].
    + eexists. split; [reflexivity |].
      intros st Hst Hs Hd. injection Hst as <-. rewrite Hs, Hd.
      set (P := fun ev => is_content_copy ev = false).
      assert (Hmk : forall p, Always P (@mkdirp_sync Fs Host p))
        by (intros; apply Always_mutate; reflexivity).
      assert (Hul : forall p, Always P (@fs_unlinkSync Fs Host p))
        by (intros; apply Always_mutate; reflexivity).
      clear Hl. refine ((_ : Always P _) d).
      repeat first
        [ apply Always_and_not_exists | apply Always_when; intros _
        | apply Always_query | apply Always_exists | apply Always_getSymlinkType
        | apply Always_mutate | apply Always_bind | intro | reflexivity
        | apply Hmk | apply Hul ].
  - intros Hd. apply polyfillCpSync_calls; try (intros; reflexivity).
    + intros Hd'. rewrite Hd in Hd'. discriminate Hd'.
    + intros _. repeat split; intros; try reflexivity.
      simpl. rewrite H. reflexivity.
Qed.

(** C9. Every invocation of a run, at whatever depth, is entered with the
    [options] of the top-level call; and when these set [recursive], no
    invocation of the run executes the polyfill's [throw] of [EISDIR]. *)
Theorem options_are_threaded_unchanged
    (n : nat) (src dest : string) (options : option CpSyncOptions) (d : Fs) :
  options_threaded options (polyfillCpSync n src dest options d).
Proof.
  split.
  - intros s t o Hin.
    set (P := fun ev => match ev with EvCall _ _ o' => o' = options | _ => True end).
    assert (H : Always P (polyfillCpSync n src dest options)).
    { apply polyfillCpSync_calls; subst P; simpl; auto. }
    specialize (H d). rewrite Forall_forall in H. apply (H _ Hin).
  - intros Hrec e Hin.
    set (P := fun ev => match ev with EvThrow _ => False | _ => True end).
    assert (H : Always P (polyfillCpSync n src dest options)).
    { apply polyfillCpSync_calls; subst P; simpl; auto.
      intros Hrec'. rewrite Hrec in Hrec'. discriminate Hrec'. }
    specialize (H d). rewrite Forall_forall in H. apply (H _ Hin).
Qed.

End Claims.

(** ** Runs on the in-memory host *)

Import MemFs Scenario.

(** The repository's tests, replayed. *)

Example copies_directory_recursively :
  let r := cp 4 "/src" "/dest" recursively fixture in
  outcome r = Returned tt /\
  inode_at (disk r) ["dest"; "target.txt"] = Some (IFile "target content") /\
  inode_at (disk r) ["dest"; "realdir"] = Some IDir /\
  inode_at (disk r) ["dest"; "realdir"; "file.txt"] = Some (IFile "file content").
Proof. vm_compute. repeat split. Qed.

Example preserves_symlinks :
  let r := cp 4 "/src" "/dest" recursively fixture in
  mem_stat false "lstat" (disk r) "/dest/link.txt" = inr {| st_type := S_IFLNK |} /\
  mem_readlink (disk r) "/dest/link.txt" = inr "../src/target.txt"%string /\
  mem_realpath (disk r) "/dest/link.txt" = inr "/src/target.txt"%string.
Proof. vm_compute. repeat split. Qed.

Example copies_symlinks_verbatim :
  let r := cp 4 "/src" "/dest" verbatim fixture in
  mem_stat false "lstat" (disk r) "/dest/link.txt" = inr {| st_type := S_IFLNK |} /\
  mem_readlink (disk r) "/dest/link.txt" = inr "target.txt"%string.
Proof. vm_compute. repeat split. Qed.

Example dereferences_symlinks :
  let r := cp 4 "/src" "/dest" dereferencing fixture in
  inode_at (disk r) ["dest"; "link.txt"] = Some (IFile "target content") /\
  inode_at (disk r) ["dest"; "linkdir"] = Some IDir /\
  inode_at (disk r) ["dest"; "linkdir"; "file.txt"] = Some (IFile "file content").
Proof. vm_compute. repeat split. Qed.

Example creates_parent_directories :
  let r := cp 1 "/src/target.txt" "/tmp/deep/nested/path/file.txt" defaults fixture in
  outcome r = Returned tt /\
  inode_at (disk r) ["tmp"; "deep"; "nested"; "path"; "file.txt"]
    = Some (IFile "target content").
Proof. vm_compute. repeat split. Qed.

Lemma directory_without_recursive_is_rejected_witness :
  let r := cp 1 "/s" "/d" defaults tree in
  mem_stat false "lstat" tree "/s" = inr {| st_type := S_IFDIR |} /\
  outcome r =
    Thrown {| message := "EISDIR: illegal operation on a directory, read '/s'";
              code := "EISDIR" |} /\
  disk r = tree /\
  events r = [EvCall "/s" "/d" defaults;
              EvLstat "/s" (inr {| st_type := S_IFDIR |});
              EvThrow (EISDIR "/s")] /\
  Forall (fun ev => is_mutation ev = false) (events r).
Proof.
  split; [reflexivity |].
  exact (@directory_without_recursive_is_rejected Disk linux 0 "/s" "/d" defaults tree
           {| st_type := S_IFDIR |} eq_refl eq_refl eq_refl).
Defined.

Lemma missing_source_fails_with_ENOENT_witness :
  let r := cp 1 "/nowhere" "/d" defaults tree in
  mem_stat false "lstat" tree "/nowhere" = inl (ENOENT "lstat" "/nowhere") /\
  (exists e', outcome r = Thrown e' /\ code e' = "ENOENT"%string) /\
  disk r = tree /\
  events r = [EvCall "/nowhere" "/d" defaults;
              EvLstat "/nowhere" (inl (ENOENT "lstat" "/nowhere"))] /\
  Forall (fun ev => is_mutation ev = false) (events r).
Proof.
  split; [reflexivity |].
  exact (@missing_source_fails_with_ENOENT Disk linux 0 "/nowhere" "/d" defaults tree
           (ENOENT "lstat" "/nowhere") eq_refl eq_refl).
Defined.

Lemma other_file_types_are_skipped_witness :
  let r := cp 1 "/s/pipe" "/d/pipe" recursively tree in
  mem_stat false "lstat" tree "/s/pipe" = inr {| st_type := S_IFIFO |} /\
  outcome r = Returned tt /\
  disk r = tree /\
  events r = [EvCall "/s/pipe" "/d/pipe" recursively;
              EvLstat "/s/pipe" (inr {| st_type := S_IFIFO |})] /\
  Forall (fun ev => is_mutation ev = false) (events r).
Proof.
  split; [reflexivity |].
  exact (@other_file_types_are_skipped Disk linux 0 "/s/pipe" "/d/pipe" recursively tree
           {| st_type := S_IFIFO |} eq_refl eq_refl eq_refl eq_refl).
Defined.

Lemma getSymlinkType_never_throws_witness :
  (let r := @getSymlinkType Disk win32 "sub" "/s/linkdir" tree in
   disk r = tree /\
   events r = [EvStat "/s/sub" (inr {| st_type := S_IFDIR |})] /\
   outcome r = Returned type_dir) /\
  (let r := @getSymlinkType Disk win32 "missing" "/s/dangling" tree in
   disk r = tree /\
   events r = [EvStat "/s/missing" (inl (ENOENT "stat" "/s/missing"))] /\
   outcome r = Returned type_file) /\
  (let r := @getSymlinkType Disk linux "sub" "/s/linkdir" tree in
   disk r = tree /\ events r = [] /\ outcome r = Returned type_file).
Proof.
  repeat apply conj.
  - exact (proj1 (@getSymlinkType_never_throws Disk win32 "sub" "/s/linkdir" tree)).
  - exact (proj1 (proj2 (@getSymlinkType_never_throws Disk win32 "sub" "/s/linkdir" tree))).
  - exact (proj2 (proj2 (@getSymlinkType_never_throws Disk win32 "sub" "/s/linkdir" tree))).
  - exact (proj1 (@getSymlinkType_never_throws Disk win32 "missing" "/s/dangling" tree)).
  - exact (proj1 (proj2 (@getSymlinkType_never_throws Disk win32 "missing" "/s/dangling" tree))).
  - exact (proj2 (proj2 (@getSymlinkType_never_throws Disk win32 "missing" "/s/dangling" tree))).
  - exact (proj1 (@getSymlinkType_never_throws Disk linux "sub" "/s/linkdir" tree)).
  - exact (proj1 (proj2 (@getSymlinkType_never_throws Disk linux "sub" "/s/linkdir" tree))).
  - exact (proj2 (proj2 (@getSymlinkType_never_throws Disk linux "sub" "/s/linkdir" tree))).
Defined.

Lemma link_target_is_relinked_witness :
  let r := cp 1 "/s/link.txt" "/d/link.txt" defaults tree in
  mem_stat false "lstat" tree "/s/link.txt" = inr {| st_type := S_IFLNK |} /\
  @writes_relinked_target Disk linux "/s/link.txt" "/d/link.txt" defaults r /\
  outcome r = Returned tt /\
  mem_readlink tree "/s/link.txt" = inr "target.txt"%string /\
  mem_readlink (disk r) "/d/link.txt" = inr "../s/target.txt"%string.
Proof.
  split; [reflexivity |]. split; [| vm_compute; auto].
  exact (@link_target_is_relinked Disk linux 0 "/s/link.txt" "/d/link.txt" defaults tree
           {| st_type := S_IFLNK |} eq_refl eq_refl eq_refl).
Defined.

(** A link to a directory and a link to a file, the latter copied to a
    place whose parent does not exist yet. *)
Lemma dereference_copies_the_target_witness :
  let r := cp 3 "/s/linkdir" "/d/linkdir" dereferencing tree in
  let rf := cp 1 "/s/link.txt" "/d/new/link.txt" dereferencing tree in
  mem_stat false "lstat" tree "/s/linkdir" = inr {| st_type := S_IFLNK |} /\
  (@copies_resolved_target Disk linux 2 "/s/linkdir" "/d/linkdir" dereferencing tree
     {| st_type := S_IFLNK |} r /\
   Forall (fun ev => is_link_op ev = false) (events r)) /\
  (outcome r = Returned tt /\
   mem_stat false "lstat" (disk r) "/d/linkdir" = inr {| st_type := S_IFDIR |} /\
   mem_readdir (disk r) "/d/linkdir" = inr ["f"%string]) /\
  mem_stat false "lstat" tree "/s/link.txt" = inr {| st_type := S_IFLNK |} /\
  (@copies_resolved_target Disk linux 0 "/s/link.txt" "/d/new/link.txt" dereferencing
     tree {| st_type := S_IFLNK |} rf /\
   Forall (fun ev => is_link_op ev = false) (events rf)) /\
  mem_exists tree "/d/new" = false /\
  outcome rf = Returned tt /\
  events rf =
    [EvCall "/s/link.txt" "/d/new/link.txt" dereferencing;
     EvLstat "/s/link.txt" (inr {| st_type := S_IFLNK |});
     EvRealpath "/s/link.txt" (inr "/s/target.txt"%string);
     EvStat "/s/target.txt" (inr {| st_type := S_IFREG |});
     EvExists "/d/new" false;
     EvMkdirp "/d/new" None;
     EvCopyFile "/s/target.txt" "/d/new/link.txt" None] /\
  inode_at (disk rf) ["d"; "new"] = Some IDir /\
  inode_at (disk rf) ["d"; "new"; "link.txt"] = Some (IFile "target content").
Proof.
  split; [reflexivity |].
  split; [exact (@dereference_copies_the_target Disk linux 2 "/s/linkdir" "/d/linkdir"
                   dereferencing tree {| st_type := S_IFLNK |} eq_refl eq_refl eq_refl) |].
  split; [vm_compute; auto |].
  split; [reflexivity |].
  split; [exact (@dereference_copies_the_target Disk linux 0 "/s/link.txt"
                   "/d/new/link.txt" dereferencing tree {| st_type := S_IFLNK |}
                   eq_refl eq_refl eq_refl) |].
  vm_compute. repeat split.
Defined.

Lemma link_copy_unlinks_reported_entry_witness :
  let r := cp 1 "/s/link.txt" "/d/link.txt" defaults tree_with_file_at_dest in
  mem_stat false "lstat" tree_with_file_at_dest "/d/link.txt" = inr {| st_type := S_IFREG |} /\
  @removes_reported_entry Disk linux "/s/link.txt" "/d/link.txt" defaults r /\
  events r =
    [EvCall "/s/link.txt" "/d/link.txt" defaults;
     EvLstat "/s/link.txt" (inr {| st_type := S_IFLNK |});
     EvExists "/d" true;
     EvReadlink "/s/link.txt" (inr "target.txt"%string);
     EvExists "/d/link.txt" true;
     EvUnlink "/d/link.txt" None;
     EvSymlink "../s/target.txt" "/d/link.txt" type_file None] /\
  outcome r = Returned tt /\
  mem_readlink (disk r) "/d/link.txt" = inr "../s/target.txt"%string.
Proof.
  split; [reflexivity |]. split; [| vm_compute; auto].
  exact (@link_copy_unlinks_reported_entry Disk linux 0 "/s/link.txt" "/d/link.txt"
           defaults tree_with_file_at_dest {| st_type := S_IFLNK |}
           eq_refl eq_refl eq_refl).
Defined.

(** C4, as the specification states it, fails: a directory at [dest] is
    reported by the probe, [unlinkSync] refuses to remove it, and the copy
    of the link throws, leaving the directory where it was. *)
Lemma directory_at_dest_is_not_replaced :
  let r := cp 1 "/s/link.txt" "/d/link.txt" defaults tree_with_directory_at_dest in
  mem_stat false "lstat" tree_with_directory_at_dest "/s/link.txt"
    = inr {| st_type := S_IFLNK |} /\
  mem_stat false "lstat" tree_with_directory_at_dest "/d/link.txt"
    = inr {| st_type := S_IFDIR |} /\
  outcome r = Thrown (EISDIR_sys "unlink" "/d/link.txt") /\
  events r =
    [EvCall "/s/link.txt" "/d/link.txt" defaults;
     EvLstat "/s/link.txt" (inr {| st_type := S_IFLNK |});
     EvExists "/d" true;
     EvReadlink "/s/link.txt" (inr "target.txt"%string);
     EvExists "/d/link.txt" true;
     EvUnlink "/d/link.txt" (Some (EISDIR_sys "unlink" "/d/link.txt"))] /\
  mem_stat false "lstat" (disk r) "/d/link.txt" = inr {| st_type := S_IFDIR |}.
Proof. vm_compute. repeat split. Qed.

(** A link at [dest] whose target exists is reported by the probe and
    replaced. *)
Example live_link_at_dest_is_replaced :
  let r := cp 1 "/s/link.txt" "/d/link.txt" defaults tree_with_live_link_at_dest in
  mem_readlink tree_with_live_link_at_dest "/d/link.txt" = inr "../s/sub/f"%string /\
  outcome r = Returned tt /\
  In (EvUnlink "/d/link.txt" None) (events r) /\
  mem_readlink (disk r) "/d/link.txt" = inr "../s/target.txt"%string.
Proof. vm_compute. intuition. Qed.

(** A link at [dest] whose target does not exist is not reported by the
    probe, which follows links; it stays, and the creation of the new link
    throws. *)
Example stale_link_at_dest_is_not_removed :
  let r := cp 1 "/s/link.txt" "/d/link.txt" defaults tree_with_stale_link_at_dest in
  mem_stat false "lstat" tree_with_stale_link_at_dest "/d/link.txt"
    = inr {| st_type := S_IFLNK |} /\
  mem_exists tree_with_stale_link_at_dest "/d/link.txt" = false /\
  outcome r = Thrown (EEXIST "symlink" "../s/target.txt' -> '/d/link.txt") /\
  mem_readlink (disk r) "/d/link.txt" = inr "nowhere"%string.
Proof. vm_compute. repeat split. Qed.

Lemma classification_uses_lstat_witness :
  let r := cp 1 "/s/linkdir" "/d/linkdir" recursively tree in
  @classified_by_lstat Disk linux "/s/linkdir" "/d/linkdir" recursively tree r /\
  mem_stat true "stat" tree "/s/linkdir" = inr {| st_type := S_IFDIR |} /\
  mem_stat false "lstat" (disk r) "/d/linkdir" = inr {| st_type := S_IFLNK |}.
Proof.
  split; [| vm_compute; auto].
  exact (@classification_uses_lstat Disk linux 0 "/s/linkdir" "/d/linkdir" recursively tree).
Defined.

Lemma options_are_threaded_unchanged_witness :
  let r := cp 3 "/s" "/d" recursively tree in
  flag recursive recursively = true /\
  @options_threaded Disk recursively r /\
  In (EvCall "/s/sub/f" "/d/sub/f" recursively) (events r) /\
  outcome r = Returned tt.
Proof.
  split; [reflexivity |]. split; [| vm_compute; intuition].
  exact (@options_are_threaded_unchanged Disk linux 3 "/s" "/d" recursively tree).
Defined.

(** C8.  A second run over a destination that holds a link to nothing
    throws: [existsSync] follows the stale link, reports no entry, the
    link is not unlinked and [symlinkSync] finds the name taken. *)
Theorem retry_over_stale_link_throws_EEXIST :
  let first := cp 2 "/s" "/d" recursively stale_tree in
  let second := cp 2 "/s" "/d" recursively (disk first) in
  outcome first = Returned tt /\
  mem_stat false "lstat" (disk first) "/d/dangling" = inr {| st_type := S_IFLNK |} /\
  mem_exists (disk first) "/d/dangling" = false /\
  outcome second = Thrown (EEXIST "symlink" "../s/missing' -> '/d/dangling") /\
  events second =
    [EvCall "/s" "/d" recursively;
     EvLstat "/s" (inr {| st_type := S_IFDIR |});
     EvExists "/d" true;
     EvReaddir "/s" (inr ["dangling"%string]);
     EvCall "/s/dangling" "/d/dangling" recursively;
     EvLstat "/s/dangling" (inr {| st_type := S_IFLNK |});
     EvExists "/d" true;
     EvReadlink "/s/dangling" (inr "missing"%string);
     EvExists "/d/dangling" false;
     EvSymlink "../s/missing" "/d/dangling" type_file
       (Some (EEXIST "symlink" "../s/missing' -> '/d/dangling"))].
Proof. vm_compute. repeat split. Qed.

(** * Further properties *)

(** ** The version test and the dispatch of [cpSync] *)

(** X1. For a version with numeric major and minor parts the bug test is
    on exactly from 22.17 upwards in the order by major, then minor:
    every later release, 23 and beyond included, counts as affected. *)
Theorem hasNativeDereferenceBug_from_22_17 (major minor : N) (rest : NodeVersion) :
  hasNativeDereferenceBug (Some major :: Some minor :: rest) = true <->
  version_le 22 17 major minor.
Proof.
  unfold hasNativeDereferenceBug, version_le, at_index, js_eq, js_ge, js_gt; simpl.
  rewrite orb_true_iff, andb_true_iff, N.eqb_eq, N.leb_le, N.ltb_lt.
  split; intros [H | H].
  - right. destruct H as [-> H]. auto.
  - left. exact H.
  - right. exact H.
  - left. destruct H as [<- H]. auto.
Qed.

Section Dispatch.
Context {Fs : Type} {Host : NodeHost Fs}.

(** X2. On a runtime counted as affected, a [cpSync] call with
    [dereference] runs the polyfill whether or not [fs.cpSync] exists, and
    so neither reads, removes nor creates a link, whatever the native
    implementation would have done. *)
Theorem cpSync_dereference_bypasses_native
    (native : option (string -> string -> option CpSyncOptions -> Run Fs unit))
    (nodeVersion : NodeVersion) (fuel : nat) (src dest : string)
    (options : option CpSyncOptions) (d : Fs) :
  hasNativeDereferenceBug nodeVersion = true ->
  flag dereference options = true ->
  cpSync native nodeVersion fuel src dest options d
    = polyfillCpSync fuel src dest options d /\
  Forall (fun ev => is_link_op ev = false)
         (events (cpSync native nodeVersion fuel src dest options d)).
Proof.
  intros Hbug Hd.
  assert (E : cpSync native nodeVersion fuel src dest options d
              = polyfillCpSync fuel src dest options d).
  { unfold cpSync. destruct native; [rewrite Hbug, Hd |]; reflexivity. }
  split; [exact E | rewrite E].
  apply polyfillCpSync_calls; try (intros; reflexivity).
  - intros _. split; intros; reflexivity.
  - intros Hd'. rewrite Hd in Hd'. discriminate Hd'.
Qed.

End Dispatch.

(** ** Whole runs of the polyfill *)

Section WholeRuns.
Context {Fs : Type} {Host : NodeHost Fs}.

(** *** Failures end the run *)

Lemma stops_ret {A} deref (a : A) (d : Fs) : stops_at_first_failure deref (ret a d).
Proof. constructor. Qed.

Lemma stops_bind {A B} deref (m : Run Fs A) (k : A -> Run Fs B) :
  (forall d, stops_at_first_failure deref (m d)) ->
  (forall a d, stops_at_first_failure deref (k a d)) ->
  forall d, stops_at_first_failure deref (bind m k d).
Proof.
  intros Hm Hk d. specialize (Hm d). unfold stops_at_first_failure, bind in *.
  destruct (outcome (m d)) as [a | e |]; cbn [outcome events]; auto.
  specialize (Hk a (disk (m d))).
  destruct (outcome (k a (disk (m d)))) as [b | e |].
  - apply Forall_app; auto.
  - destruct Hk as (pre & ev & Hev & Hf & Hpre).
    exists (events (m d) ++ pre), ev. rewrite Hev, app_assoc.
    repeat split; auto. apply Forall_app; auto.
  - apply Forall_app; auto.
Qed.

Lemma stops_single {A} deref (o : Outcome A) (d : Fs) (ev : Event) :
  match o with Thrown e => failure deref ev = Some e | _ => failure deref ev = None end ->
  stops_at_first_failure deref (mkRan o d [ev]).
Proof.
  intros H. unfold stops_at_first_failure; cbn [outcome events].
  destruct o as [a | e |]; auto.
  exists [], ev. auto.
Qed.

Lemma stops_query {A} deref (ask : Fs -> ErrnoException + A) ev :
  (forall e, failure deref (ev (inl e)) = Some e) ->
  (forall a, failure deref (ev (inr a)) = None) ->
  forall d, stops_at_first_failure deref (query ask ev d).
Proof.
  intros He Ha d. unfold query. destruct (ask d); apply stops_single; auto.
Qed.

Lemma stops_mutate deref (act : Fs -> option ErrnoException * Fs) ev :
  (forall e, failure deref (ev (Some e)) = Some e) ->
  failure deref (ev None) = None ->
  forall d, stops_at_first_failure deref (mutate act ev d).
Proof.
  intros He Hn d. unfold mutate. destruct (act d) as [[e |] d']; apply stops_single; auto.
Qed.

Lemma stops_when deref (c : bool) (m : Run Fs unit) :
  (forall d, stops_at_first_failure deref (m d)) ->
  forall d, stops_at_first_failure deref (when c m d).
Proof. intros H d. destruct c; simpl; [apply H | apply stops_ret]. Qed.

Lemma stops_and_not_exists deref p (d : Fs) :
  stops_at_first_failure deref (and_not_exists p d).
Proof.
  unfold and_not_exists. destruct (truthy p); [| apply stops_ret].
  apply stops_bind; intros; [apply stops_single; reflexivity | apply stops_ret].
Qed.

Lemma stops_for_each {A} deref (body : A -> Run Fs unit) xs :
  (forall x d, stops_at_first_failure deref (body x d)) ->
  forall d, stops_at_first_failure deref (for_each body xs d).
Proof.
  intros H. induction xs as [| x xs IH]; intros d; simpl.
  - apply stops_ret.
  - apply stops_bind; auto.
Qed.

Lemma stops_getSymlinkType t s (d : Fs) :
  stops_at_first_failure false (getSymlinkType t s d).
Proof.
  rewrite getSymlinkType_run.
  destruct (platform =? "win32")%string; [| constructor].
  apply stops_single. destruct (statSync d (hint_target t s)); reflexivity.
Qed.

(** X3. No failure is swallowed and none is survived: a run of the
    polyfill throws exactly when one of its host calls, or its own
    [throw], failed; that call is the last one of the run and its error is
    the error thrown, unchanged.  The one exception is the [statSync] of
    [getSymlinkType]. *)
Theorem polyfillCpSync_stops_at_first_failure
    (n : nat) (src dest : string) (options : option CpSyncOptions) (d : Fs) :
  stops_at_first_failure (flag dereference options) (polyfillCpSync n src dest options d).
Proof.
  revert src dest d.
  induction n as [| n IH]; intros src dest d; cbn [polyfillCpSync].
  - constructor.
  - revert d.
    apply stops_bind; [intros; apply stops_single; reflexivity | intros _].
    apply stops_bind; [apply stops_query; reflexivity | intros lstat].
    assert (Hparent : forall p (k : Run Fs unit),
              (forall d, stops_at_first_failure (flag dereference options) (k d)) ->
              forall d, stops_at_first_failure (flag dereference options)
                          ((missing <- and_not_exists p ;;
                            when missing (mkdirp_sync p) ;; k)%run d)).
    { intros p k Hk.
      apply stops_bind; [apply stops_and_not_exists | intros missing].
      apply stops_bind; [| intros _; exact Hk].
      apply stops_when. apply stops_mutate; reflexivity. }
    destruct (isSymbolicLink lstat).
    + destruct (flag dereference options) eqn:Hd.
      * apply stops_bind; [apply stops_query; reflexivity | intros realPath].
        apply stops_bind; [apply stops_query; reflexivity | intros realStat].
        destruct (isDirectory realStat); [apply IH |].
        apply Hparent. apply stops_mutate; reflexivity.
      * apply Hparent.
        apply stops_bind; [apply stops_query; reflexivity | intros linkTarget].
        apply stops_bind; [intros; apply stops_single; reflexivity | intros occupied].
        apply stops_bind;
          [apply stops_when; apply stops_mutate; reflexivity | intros _].
        apply stops_bind; [apply stops_getSymlinkType | intros symlinkType].
        apply stops_mutate; reflexivity.
    + destruct (isFile lstat).
      * apply Hparent. apply stops_mutate; reflexivity.
      * destruct (isDirectory lstat); [| intros; apply stops_ret].
        apply stops_bind.
        { apply stops_when. intros d. apply stops_single. reflexivity. }
        intros _.
        apply stops_bind.
        { apply stops_bind; intros; [apply stops_single; reflexivity | apply stops_ret]. }
        intros absent.
        apply stops_bind;
          [apply stops_when; apply stops_mutate; reflexivity | intros _].
        apply stops_bind; [apply stops_query; reflexivity | intros entries].
        apply stops_for_each. intros entry. apply IH.
Qed.

(** *** Where a run writes *)



(** *** Which paths are paired *)

Lemma polyfillCpSync_mirrors (options : option CpSyncOptions) (src dest : string) :
  flag dereference options = false ->
  forall n s t,
    Mirrored src dest s t ->
    Always (mirrors src dest) (polyfillCpSync n s t options).
Proof.
  intros Hd.
  induction n as [| n IH]; intros s t Hst; cbn [polyfillCpSync].
  - apply Always_out_of_fuel.
  - rewrite Hd.
    assert (Hparent : forall (k : Run Fs unit),
              Always (mirrors src dest) k ->
              Always (mirrors src dest)
                (missing <- and_not_exists (path_dirname t) ;;
                 when missing (mkdirp_sync (path_dirname t)) ;; k)%run).
    { intros k Hk.
      apply Always_bind; [apply Always_and_not_exists; simpl; auto | intros missing].
      apply Always_bind; [| intros _; exact Hk].
      apply Always_when. intros _. apply Always_mutate. intros r. exact I. }
    apply Always_bind; [apply Always_note; exact Hst | intros _].
    apply Always_bind; [apply Always_query; intros; simpl; eauto | intros lstat].
    destruct (isSymbolicLink lstat).
    + apply Hparent.
      apply Always_bind; [apply Always_query; intros; simpl; eauto | intros linkTarget].
      apply Always_bind; [apply Always_exists; intros; exact I | intros occupied].
      apply Always_bind.
      { apply Always_when. intros _. apply Always_mutate. intros r. simpl. eauto. }
      intros _.
      apply Always_bind;
        [apply Always_getSymlinkType; intros; exact I | intros symlinkType].
      apply Always_mutate. intros r. simpl. eauto.
    + destruct (isFile lstat).
      * apply Hparent. apply Always_mutate. intros r. exact Hst.
      * destruct (isDirectory lstat); [| apply Always_ret].
        apply Always_bind.
        { apply Always_when. intros _. apply Always_throw. exact I. }
        intros _.
        apply Always_bind.
        { apply Always_bind; [apply Always_exists; intros; exact I
                             | intros; apply Always_ret]. }
        intros absent.
        apply Always_bind.
        { apply Always_when. intros _. apply Always_mutate. intros r. exact I. }
        intros _.
        apply Always_bind; [apply Always_query; intros; simpl; eauto | intros entries].
        apply Always_for_each. intros entry. apply IH. constructor. exact Hst.
Qed.

(** X5. Without [dereference] the copy mirrors the source: every nested
    invocation and every byte copy pairs [src] joined with some entry
    names with [dest] joined with the same names, every status, listing
    and link read is on such a source path and every link removed or
    created is on such a destination path. *)
Theorem polyfillCpSync_mirrors_entry_names
    (n : nat) (src dest : string) (options : option CpSyncOptions) (d : Fs) :
  flag dereference options = false ->
  Forall (mirrors src dest) (events (polyfillCpSync n src dest options d)).
Proof. intros Hd. apply polyfillCpSync_mirrors; [exact Hd | constructor]. Qed.

(** *** What of the options matters *)

Lemma same_run_refl {A} (r : Ran Fs A) : same_run r r.
Proof. repeat split. Qed.

Lemma same_run_bind {A B} (m m' : Run Fs A) (k k' : A -> Run Fs B) :
  (forall d, same_run (m d) (m' d)) ->
  (forall a d, same_run (k a d) (k' a d)) ->
  forall d, same_run (bind m k d) (bind m' k' d).
Proof.
  intros Hm Hk d. destruct (Hm d) as (Ho & Hdk & Hev).
  unfold same_run, bind. rewrite <- Ho.
  destruct (outcome (m d)) as [a | e |]; cbn [outcome disk events]; auto.
  rewrite <- Hdk. destruct (Hk a (disk (m d))) as (Ho' & Hdk' & Hev').
  repeat split; auto. rewrite !map_app. congruence.
Qed.

Lemma same_run_for_each {A} (f g : A -> Run Fs unit) xs :
  (forall x d, same_run (f x d) (g x d)) ->
  forall d, same_run (for_each f xs d) (for_each g xs d).
Proof.
  intros H. induction xs as [| x xs IH]; intros d; simpl.
  - apply same_run_refl.
  - apply same_run_bind; auto.
Qed.

(** X6. The polyfill sees its options only through three flags, each
    off when the record or the field is missing: two records with the same
    [recursive] and [dereference] give the same outcome, the same disk and
    the same calls, provided they also agree on [verbatimSymlinks] or
    [dereference] is on, in which case [verbatimSymlinks] has no effect. *)
Theorem options_matter_through_flags_only
    (n : nat) (src dest : string) (o o' : option CpSyncOptions) (d : Fs) :
  same_flags o o' ->
  same_run (polyfillCpSync n src dest o d) (polyfillCpSync n src dest o' d).
Proof.
  intros (Hr & Hd & Hv). revert src dest d.
  induction n as [| n IH]; intros src dest d; cbn [polyfillCpSync].
  - apply same_run_refl.
  - revert d.
    apply same_run_bind; [intros d; repeat split | intros _].
    apply same_run_bind; [intros; apply same_run_refl | intros lstat].
    rewrite <- Hd, <- Hr.
    destruct (isSymbolicLink lstat).
    + destruct (flag dereference o) eqn:Hdo.
      * apply same_run_bind; [intros; apply same_run_refl | intros realPath].
        apply same_run_bind; [intros; apply same_run_refl | intros realStat].
        destruct (isDirectory realStat); [apply IH | intros; apply same_run_refl].
      * destruct Hv as [Hv | Hv]; [discriminate Hv |]. rewrite <- Hv.
        intros; apply same_run_refl.
    + destruct (isFile lstat); [intros; apply same_run_refl |].
      destruct (isDirectory lstat); [| intros; apply same_run_refl].
      apply same_run_bind; [intros; apply same_run_refl | intros _].
      apply same_run_bind; [intros; apply same_run_refl | intros absent].
      apply same_run_bind; [intros; apply same_run_refl | intros _].
      apply same_run_bind; [intros; apply same_run_refl | intros entries].
      apply same_run_for_each. intros entry. apply IH.
Qed.

(** *** Which links are created *)

Lemma Always_bind_value {A B} P (Q : A -> Prop) (m : Run Fs A) (k : A -> Run Fs B) :
  Always P m ->
  (forall d a, outcome (m d) = Returned a -> Q a) ->
  (forall a, Q a -> Always P (k a)) ->
  Always P (bind m k).
Proof.
  intros Hm HQ Hk d. unfold bind. specialize (Hm d). specialize (HQ d).
  destruct (outcome (m d)) as [a | e |]; simpl; auto.
  apply Forall_app; split; [assumption | apply Hk; auto].
Qed.

(** X7. Although [getSymlinkType] is typed to allow ['junction'], no run
    of the polyfill creates one: every link is created with type ['file']
    or ['dir'], and off Windows always with ['file']. *)
Theorem polyfillCpSync_never_creates_a_junction
    (n : nat) (src dest : string) (options : option CpSyncOptions) (d : Fs) :
  Forall link_type_ok (events (polyfillCpSync n src dest options d)).
Proof.
  revert d. change (Always link_type_ok (polyfillCpSync n src dest options)).
  revert src dest.
  induction n as [| n IH]; intros src dest; cbn [polyfillCpSync].
  - apply Always_out_of_fuel.
  - assert (Hparent : forall p (k : Run Fs unit),
              Always link_type_ok k ->
              Always link_type_ok
                (missing <- and_not_exists p ;; when missing (mkdirp_sync p) ;; k)%run).
    { intros p k Hk.
      apply Always_bind; [apply Always_and_not_exists; simpl; auto | intros missing].
      apply Always_bind; [| intros _; exact Hk].
      apply Always_when. intros _. apply Always_mutate. intros r. exact I. }
    apply Always_bind; [apply Always_note; exact I | intros _].
    apply Always_bind; [apply Always_query; intros; exact I | intros lstat].
    destruct (isSymbolicLink lstat).
    + destruct (flag dereference options).
      * apply Always_bind; [apply Always_query; intros; exact I | intros realPath].
        apply Always_bind; [apply Always_query; intros; exact I | intros realStat].
        destruct (isDirectory realStat); [apply IH |].
        apply Hparent. apply Always_mutate. intros r. exact I.
      * apply Hparent.
        apply Always_bind; [apply Always_query; intros; exact I | intros linkTarget].
        apply Always_bind; [apply Always_exists; intros; exact I | intros occupied].
        apply Always_bind.
        { apply Always_when. intros _. apply Always_mutate. intros r. exact I. }
        intros _.
        apply Always_bind_value with
          (Q := fun type => type <> type_junction /\
                            ((platform =? "win32")%string = false -> type = type_file)).
        { apply Always_getSymlinkType. intros; exact I. }
        { intros d type. rewrite getSymlinkType_run.
          destruct (platform =? "win32")%string; cbn [outcome].
          - intros H. injection H as <-. split; [| discriminate].
            destruct (statSync d _) as [e | st]; [discriminate |].
            destruct (isDirectory st); discriminate.
          - intros H. injection H as <-. split; [discriminate | reflexivity]. }
        intros type Htype. apply Always_mutate. intros r. exact Htype.
    + destruct (isFile lstat).
      * apply Hparent. apply Always_mutate. intros r. exact I.
      * destruct (isDirectory lstat); [| apply Always_ret].
        apply Always_bind.
        { apply Always_when. intros _. apply Always_throw. exact I. }
        intros _.
        apply Always_bind.
        { apply Always_bind; [apply Always_exists; intros; exact I
                             | intros; apply Always_ret]. }
        intros absent.
        apply Always_bind.
        { apply Always_when. intros _. apply Always_mutate. intros r. exact I. }
        intros _.
        apply Always_bind; [apply Always_query; intros; exact I | intros entries].
        apply Always_for_each. intros entry. apply IH.
Qed.

End WholeRuns.

(** ** The chunked copier on any host *)

Section Bytes.
Local Open Scope string_scope.

Lemma sapp_nil_r (s : string) : s ++ "" = s.
Proof. induction s; simpl; congruence. Qed.

Lemma sapp_assoc (a b c : string) : (a ++ b) ++ c = a ++ b ++ c.
Proof. induction a; simpl; congruence. Qed.

Lemma length_sapp (a b : string) :
  String.length (a ++ b) = String.length a + String.length b.
Proof. induction a; simpl; congruence. Qed.

Lemma take_0 (s : string) : take 0 s = "".
Proof. destruct s; reflexivity. Qed.

Lemma drop_0 (s : string) : drop 0 s = s.
Proof. destruct s; reflexivity. Qed.

Lemma take_drop (n : nat) (s : string) : take n s ++ drop n s = s.
Proof.
  revert n. induction s as [| c s IH]; intros [| n]; simpl; try reflexivity.
  now rewrite IH.
Qed.

Lemma take_app_length (w r : string) : take (String.length w) (w ++ r) = w.
Proof. induction w; simpl; [apply take_0 | congruence]. Qed.

Lemma drop_app_length (w r : string) : drop (String.length w) (w ++ r) = r.
Proof. induction w; simpl; [apply drop_0 | assumption]. Qed.

Lemma length_drop (n : nat) (s : string) :
  String.length (drop n s) = String.length s - n.
Proof.
  revert n. induction s as [| c s IH]; intros [| n]; simpl; auto.
Qed.

Lemma take_empty_inv (n : nat) (s : string) : 0 < n -> take n s = "" -> s = "".
Proof. destruct s, n; simpl; intros Hn H; auto; [lia | discriminate H]. Qed.

Lemma length_0_inv (s : string) : String.length s = 0 -> s = "".
Proof. destruct s; simpl; [reflexivity | discriminate]. Qed.

(** What is written after a read into the start of the buffer is what was
    read, whatever the buffer held. *)
Lemma written_is_read (buffer bytes : string) :
  take (String.length bytes) (drop 0 (overlay buffer 0 bytes)) = bytes.
Proof.
  unfold overlay. rewrite drop_0, take_0. simpl. apply take_app_length.
Qed.

End Bytes.

Module ChunkedCopy.
Import Fd.
Local Open Scope io_scope.
Local Opaque BUFFER_SIZE.

Section AnyHost.
Context {St : Type} {Host : FdHost St}.

Lemma bind_call {A B} (act : St -> (ErrnoException + A) * St) ev (k : A -> IO St B) s :
  bind (call act ev) k s =
  match act s with
  | (inl e, s') => mkDone (Thrown e) s' [ev (inl e)]
  | (inr a, s') =>
      let r := k a s' in mkDone (result r) (state r) (ev (inr a) :: calls r)
  end.
Proof. unfold bind, call. destruct (act s) as [[e | a] s']; reflexivity. Qed.

Lemma bind_read {B} fd buffer offset len pos (k : string * nat -> IO St B) s :
  bind (fs_readSync fd buffer offset len pos) k s =
  match readSync s fd len pos with
  | (inl e, s') => mkDone (Thrown e) s' [Read fd len pos (inl e)]
  | (inr bytes, s') =>
      let r := k (overlay buffer offset bytes, String.length bytes) s' in
      mkDone (result r) (state r) (Read fd len pos (inr bytes) :: calls r)
  end.
Proof.
  unfold bind, fs_readSync. destruct (readSync s fd len pos) as [[e | a] s']; reflexivity.
Qed.

(** One round of it. *)
Lemma read_then_copy_step (fuel srcFd destFd : nat) (buffer : string) (pos : nat) (s : St) :
  read_then_copy fuel srcFd destFd buffer pos s =
  match readSync s srcFd BUFFER_SIZE pos with
  | (inl e, s') => mkDone (Thrown e) s' [Read srcFd BUFFER_SIZE pos (inl e)]
  | (inr bytes, s') =>
      let read := Read srcFd BUFFER_SIZE pos (inr bytes) in
      if (0 <? String.length bytes)%nat then
        match fuel with
        | O => mkDone OutOfFuel s' [read]
        | S fuel' =>
            match writeSync s' destFd bytes with
            | (inl e, s'') => mkDone (Thrown e) s'' [read; Write destFd bytes (inl e)]
            | (inr n, s'') =>
                let r := read_then_copy fuel' srcFd destFd (overlay buffer 0 bytes)
                           (pos + String.length bytes) s'' in
                mkDone (result r) (state r)
                       (read :: Write destFd bytes (inr n) :: calls r)
            end
        end
      else mkDone (Returned tt) s' [read]
  end.
Proof.
  unfold read_then_copy at 1. rewrite bind_read.
  destruct (readSync s srcFd BUFFER_SIZE pos) as [[e | bytes] s']; [reflexivity |].
  cbv zeta. destruct fuel as [| fuel]; cbn [copy_chunks];
    destruct (0 <? String.length bytes)%nat; try reflexivity.
  unfold fs_writeSync. rewrite bind_call, written_is_read.
  destruct (writeSync s' destFd bytes) as [[e | n] s'']; reflexivity.
Qed.

Lemma read_then_copy_chunks (srcFd destFd : nat) :
  forall fuel buffer pos s,
    result (read_then_copy fuel srcFd destFd buffer pos s) <> OutOfFuel ->
    Chunks srcFd destFd pos
      (calls (read_then_copy fuel srcFd destFd buffer pos s))
      (result (read_then_copy fuel srcFd destFd buffer pos s)).
Proof.
  induction fuel as [| fuel IH]; intros buffer pos s;
    rewrite read_then_copy_step;
    (destruct (readSync s srcFd BUFFER_SIZE pos) as [[e | bytes] s'];
     cbn [result state calls]; [intros _; constructor |]);
    cbv zeta;
    (destruct (Nat.ltb_spec 0 (String.length bytes)) as [Hlen | Hlen];
     [ assert (Hne : bytes <> ""%string) by (intros ->; simpl in Hlen; lia)
     | assert (bytes = ""%string) as -> by (apply length_0_inv; lia);
       cbn [result state calls]; intros _; constructor ]).
  - cbn [result state calls]. intros H. now contradiction H.
  - destruct (writeSync s' destFd bytes) as [[e | n] s''];
      cbn [result state calls].
    + intros _. constructor. exact Hne.
    + intros Hfin. constructor; [exact Hne | apply IH; exact Hfin].
Qed.

Lemma chunkedCopyFileSync_shape (fuel : nat) (src dest : string) (s : St) :
  result (chunkedCopyFileSync fuel src dest s) <> OutOfFuel ->
  closes_what_it_opens src dest s (chunkedCopyFileSync fuel src dest s).
Proof.
  remember (chunkedCopyFileSync fuel src dest s) as r eqn:Er.
  intros Hfin. unfold closes_what_it_opens.
  unfold chunkedCopyFileSync, fs_openSync at 1 in Er. rewrite bind_call in Er.
  destruct (openSync s src "r") as [[e | srcFd] s1] eqn:Hsrc.
  { left. exists e. subst r. auto. }
  right. cbv zeta in Er.
  set (inner := (destFd <- fs_openSync dest "w" ;; _)%io) in Er.
  unfold try_finally in Er.
  assert (Ei : inner s1 =
    match openSync s1 dest "w" with
    | (inl e, s2) => mkDone (Thrown e) s2 [Open dest "w" (inl e)]
    | (inr destFd, s2) =>
        let r1 := try_finally
                    (read_then_copy fuel srcFd destFd (allocBuffer BUFFER_SIZE) 0)
                    (fs_closeSync destFd) s2 in
        mkDone (result r1) (state r1) (Open dest "w" (inr destFd) :: calls r1)
    end).
  { unfold inner, fs_openSync. rewrite bind_call.
    destruct (openSync s1 dest "w") as [[e | destFd] s2]; reflexivity. }
  rewrite Ei in Er. clear Ei inner.
  destruct (openSync s1 dest "w") as [[e | destFd] s2] eqn:Hdest.
  { left. cbn [result state calls] in Er. unfold fs_closeSync in Er.
    destruct (closeSync s2 srcFd) as [[c |] s3]; cbn [result state calls app] in Er;
      subst r; eexists _, _, _; split; reflexivity. }
  right. cbv zeta in Er. unfold try_finally in Er.
  pose proof (read_then_copy_chunks srcFd destFd fuel (allocBuffer BUFFER_SIZE) 0 s2)
    as Hbody.
  destruct (read_then_copy fuel srcFd destFd (allocBuffer BUFFER_SIZE) 0 s2)
    as [o s3 body]; cbn [result state calls] in *.
  unfold fs_closeSync in Er.
  destruct o as [[] | e |]; cbn [result state calls] in Er;
    try (subst r; now contradiction Hfin).
  all: destruct (closeSync s3 destFd) as [[c1 |] s4]; cbn [result state calls] in Er.
  all: destruct (closeSync s4 srcFd) as [[c2 |] s5]; cbn [result state calls app] in Er.
  all: subst r; cbn [result state calls].
  all: eexists srcFd, destFd, body, _, _, _.
  all: (split; [rewrite <- app_assoc; reflexivity
               | split; [apply Hbody; discriminate | reflexivity]]).
Qed.

(** The call, given what the host answers to the opens and the closes. *)
Lemma chunkedCopyFileSync_run (fuel : nat) (src dest : string)
    (s s1 s2 s4 s5 : St) (fd1 fd2 : nat) (c1 c2 : option ErrnoException) :
  openSync s src "r" = (inr fd1, s1) ->
  openSync s1 dest "w" = (inr fd2, s2) ->
  let body := read_then_copy fuel fd1 fd2 (allocBuffer BUFFER_SIZE) 0 s2 in
  result body <> OutOfFuel ->
  closeSync (state body) fd2 = (c1, s4) ->
  closeSync s4 fd1 = (c2, s5) ->
  result (chunkedCopyFileSync fuel src dest s) = after_closing (result body) c1 c2 /\
  state (chunkedCopyFileSync fuel src dest s) = s5.
Proof.
  intros H1 H2 body Hfin Hc1 Hc2.
  remember (chunkedCopyFileSync fuel src dest s) as r eqn:Er.
  unfold chunkedCopyFileSync, fs_openSync at 1 in Er.
  rewrite bind_call, H1 in Er. cbv zeta in Er.
  set (inner := (destFd <- fs_openSync dest "w" ;; _)%io) in Er.
  unfold try_finally in Er.
  assert (Ei : inner s1 =
    let r1 := try_finally (read_then_copy fuel fd1 fd2 (allocBuffer BUFFER_SIZE) 0)
                (fs_closeSync fd2) s2 in
    mkDone (result r1) (state r1) (Open dest "w" (inr fd2) :: calls r1)).
  { unfold inner, fs_openSync. rewrite bind_call, H2. reflexivity. }
  rewrite Ei in Er. clear Ei inner.
  cbv zeta in Er. unfold try_finally in Er. fold body in Er.
  unfold fs_closeSync in Er.
  destruct (result body) as [[] | e |] eqn:Hres; cbn [result state calls] in Er;
    try (now contradiction Hfin).
  all: rewrite Hc1 in Er; destruct c1; cbn [result state calls] in Er.
  all: rewrite Hc2 in Er; destruct c2; cbn [result state calls] in Er.
  all: subst r; split; reflexivity.
Qed.

Lemma Chunks_bytes (srcFd destFd pos : nat) (body : list FdCall) (o : Outcome unit) :
  Chunks srcFd destFd pos body o -> bytes_written body = bytes_read body.
Proof.
  induction 1; simpl; try reflexivity; congruence.
Qed.

Lemma bytes_read_app (a b : list FdCall) :
  bytes_read (a ++ b) = (bytes_read a ++ bytes_read b)%string.
Proof.
  induction a as [| [? ? r | ? ? ? [e | bytes] | ? ? r | ? r] a IH]; simpl; auto.
  rewrite IH. now rewrite sapp_assoc.
Qed.

Lemma bytes_written_app (a b : list FdCall) :
  bytes_written (a ++ b) = (bytes_written a ++ bytes_written b)%string.
Proof.
  induction a as [| [? ? r | ? ? ? r | ? ? r | ? r] a IH]; simpl; auto.
  rewrite IH. now rewrite sapp_assoc.
Qed.

(** X8. However a call of [chunkedCopyFileSync] ends, it has closed what
    it opened.  If the source cannot be opened that is its only call and
    the destination is not touched.  If the destination cannot be opened
    the source is closed again.  Otherwise the source is read in chunks of
    [BUFFER_SIZE] bytes at consecutive positions from 0, each non-empty
    chunk is written as read, and after an empty read or the first
    throwing read or write the destination and then the source are closed;
    an error thrown by a close replaces the earlier one. *)
Theorem chunkedCopyFileSync_closes_what_it_opens
    (fuel : nat) (src dest : string) (s : St) :
  result (chunkedCopyFileSync fuel src dest s) <> OutOfFuel ->
  closes_what_it_opens src dest s (chunkedCopyFileSync fuel src dest s).
Proof. apply chunkedCopyFileSync_shape. Qed.

(** X9. In every finished call the bytes handed to [writeSync], in
    order, are the bytes [readSync] returned, in order: the buffer is
    reused across chunks, yet nothing stale in it, and nothing a fresh
    buffer happened to hold, is ever written.  The count [writeSync]
    returns is not looked at. *)
Theorem chunkedCopyFileSync_writes_what_it_reads
    (fuel : nat) (src dest : string) (s : St) :
  result (chunkedCopyFileSync fuel src dest s) <> OutOfFuel ->
  bytes_written (calls (chunkedCopyFileSync fuel src dest s))
  = bytes_read (calls (chunkedCopyFileSync fuel src dest s)).
Proof.
  intros Hfin.
  destruct (chunkedCopyFileSync_shape fuel src dest s Hfin)
    as [(e & _ & Hc & _)
       | [(srcFd & e & c & Hc & _)
         | (srcFd & destFd & body & o & c1 & c2 & Hc & Hbody & _)]];
    rewrite Hc; try reflexivity.
  cbn [bytes_written bytes_read].
  rewrite bytes_read_app, bytes_written_app. cbn.
  now rewrite (Chunks_bytes Hbody).
Qed.

End AnyHost.

(** ** The chunked copier on the in-memory host *)

Import MemFs MemFd.

Section MidCopy.
Local Open Scope string_scope.

Lemma names_eqb_eq (a b : list string) : names_eqb a b = true <-> a = b.
Proof.
  revert b. induction a as [| x a IH]; intros [| y b]; simpl; split; intros H;
    try discriminate; auto.
  - apply andb_true_iff in H as [Hx Hab]. apply String.eqb_eq in Hx.
    apply IH in Hab. congruence.
  - injection H as -> ->. rewrite String.eqb_refl. now apply IH.
Qed.

Lemma names_eqb_refl (a : list string) : names_eqb a a = true.
Proof. now apply names_eqb_eq. Qed.

Lemma names_eqb_trans_false (q0 q p : list string) :
  names_eqb q0 q = true -> names_eqb q p = false -> names_eqb q0 p = false.
Proof. intros H. apply names_eqb_eq in H. now subst. Qed.

Lemma assoc_put_at_same (d : Disk) (q : list string) (i : Inode) :
  assoc (put_at d q i) q = Some i.
Proof.
  induction d as [| [q0 j] d IH]; simpl.
  - now rewrite names_eqb_refl.
  - destruct (names_eqb q0 q) eqn:E; simpl; rewrite E; auto.
Qed.

Lemma assoc_put_at_other (d : Disk) (q p : list string) (i : Inode) :
  names_eqb q p = false -> assoc (put_at d q i) p = assoc d p.
Proof.
  intros Hqp. induction d as [| [q0 j] d IH]; simpl.
  - now rewrite Hqp.
  - destruct (names_eqb q0 q) eqn:E; simpl.
    + now rewrite (names_eqb_trans_false _ _ _ E Hqp).
    + destruct (names_eqb q0 p); auto.
Qed.

Lemma put_at_put_at (d : Disk) (q : list string) (a b : Inode) :
  put_at (put_at d q a) q b = put_at d q b.
Proof.
  induction d as [| [q0 j] d IH]; simpl.
  - now rewrite names_eqb_refl.
  - destruct (names_eqb q0 q) eqn:E; simpl; rewrite E; congruence.
Qed.

Lemma inode_at_put_at_same (d : Disk) (q : list string) (i : Inode) :
  q <> [] -> inode_at (put_at d q i) q = Some i.
Proof. destruct q; [congruence | intros _; apply assoc_put_at_same]. Qed.

Lemma inode_at_put_at_other (d : Disk) (q p : list string) (i : Inode) :
  names_eqb q p = false -> inode_at (put_at d q i) p = inode_at d p.
Proof. destruct p; [reflexivity | apply assoc_put_at_other]. Qed.

(** Path resolution answers with what the disk holds at the path it found. *)
Lemma walk_sound :
  forall fuel d follow syscall p cur rest q o,
    walk fuel d follow syscall p cur rest = inr (q, o) -> inode_at d q = o.
Proof.
  induction fuel as [| fuel IH]; intros d follow syscall p cur rest q o H;
    cbn [walk] in H; [discriminate H |].
  destruct rest as [| n rest']; [injection H as <- <-; reflexivity |].
  destruct (inode_at d cur) as [[] |]; try discriminate H.
  destruct (n =? "."); [eauto |]. destruct (n =? ".."); [eauto |].
  cbv zeta in H.
  destruct (inode_at d (cur ++ [n])%list) as [[data | | t |] |] eqn:Hh; eauto.
  - destruct rest', follow; eauto. injection H as <- <-. exact Hh.
  - destruct rest'; [injection H as <- <-; exact Hh | discriminate H].
Qed.

Lemma lookup_sound (d : Disk) (follow : bool) (syscall p : string) q o :
  lookup d follow syscall p = inr (q, o) -> inode_at d q = o.
Proof. apply walk_sound. Qed.

Lemma take_all (s : string) : take (String.length s) s = s.
Proof. rewrite <- (sapp_nil_r s) at 2. rewrite take_app_length. reflexivity. Qed.

Lemma drop_beyond (n : nat) (s : string) : String.length s <= n -> drop n s = "".
Proof.
  intros H. apply length_0_inv. rewrite length_drop. lia.
Qed.

Lemma splice_at_end (data bytes : string) :
  splice data (String.length data) bytes = data ++ bytes.
Proof.
  unfold splice. rewrite take_all, Nat.sub_diag, drop_beyond by lia.
  simpl. now rewrite sapp_nil_r.
Qed.

Lemma next_fd_above (t : list (nat * Descriptor)) (fd : nat) (desc : Descriptor) :
  next_fd ((fd, desc) :: t) <> fd.
Proof.
  cbn [next_fd]. intros H. pose proof (Nat.le_max_l (S fd) (next_fd t)) as Hle.
  rewrite H in Hle. exact (Nat.nle_succ_diag_l _ Hle).
Qed.

Variable fresh : nat -> string.
Variables (F : Disk) (T : list (nat * Descriptor)).
Variables (qs qd : list string) (fd1 fd2 : nat).

Local Abbreviation here := (midway F T qs qd fd1 fd2).

Hypothesis distinct_files : names_eqb qd qs = false.
Hypothesis dest_not_root : qd <> [].
Hypothesis distinct_fds : fd2 <> fd1.

Lemma midway_read (written rest : string) (len : nat) :
  inode_at F qs = Some (IFile (written ++ rest)) ->
  mem_read (here written) fd1 len (String.length written)
  = (inr (take len rest), here written).
Proof.
  intros Hsrc. unfold mem_read, midway; cbn [table files find_fd at_path].
  apply Nat.eqb_neq in distinct_fds. rewrite distinct_fds, Nat.eqb_refl.
  cbn [at_path]. rewrite inode_at_put_at_other by exact distinct_files.
  rewrite Hsrc, drop_app_length. reflexivity.
Qed.

Lemma midway_write (written bytes : string) :
  mem_write (here written) fd2 bytes
  = (inr (String.length bytes), here (written ++ bytes)).
Proof.
  unfold mem_write, midway; cbn [table files find_fd at_path writable offset].
  rewrite Nat.eqb_refl. cbn [at_path writable offset set_fd].
  rewrite inode_at_put_at_same by exact dest_not_root.
  rewrite Nat.eqb_refl, put_at_put_at, splice_at_end, length_sapp. reflexivity.
Qed.

Lemma BUFFER_SIZE_positive : 0 < BUFFER_SIZE.
Proof. apply Nat.ltb_lt. vm_compute. reflexivity. Qed.

Lemma copy_loop_completes :
  forall fuel written rest buffer,
    inode_at F qs = Some (IFile (written ++ rest)) ->
    String.length rest <= fuel * BUFFER_SIZE ->
    let r := @read_then_copy FdDisk (host fresh) fuel fd1 fd2 buffer
               (String.length written) (here written) in
    result r = Returned tt /\ state r = here (written ++ rest).
Proof.
  pose proof BUFFER_SIZE_positive as HB.
  induction fuel as [| fuel IH]; intros written rest buffer Hsrc Hlen;
    cbv zeta; rewrite read_then_copy_step;
    change (@readSync FdDisk (host fresh)) with mem_read;
    change (@writeSync FdDisk (host fresh)) with mem_write;
    rewrite (midway_read _ _ _ Hsrc); cbv zeta;
    (destruct (Nat.ltb_spec 0 (String.length (take BUFFER_SIZE rest))) as [Hn | Hn];
     [| assert (rest = "") as ->
          by (apply take_empty_inv with (n := BUFFER_SIZE);
              [exact HB | apply length_0_inv; lia]);
        rewrite sapp_nil_r; split; reflexivity ]).
  - assert (rest = "") as -> by (apply length_0_inv; simpl in Hlen; lia).
    cbn [take String.length] in Hn. lia.
  - rewrite midway_write. cbv zeta. cbn [result state].
    rewrite <- length_sapp.
    replace (written ++ rest)
      with ((written ++ take BUFFER_SIZE rest) ++ drop BUFFER_SIZE rest)
      by (now rewrite sapp_assoc, take_drop).
    apply IH.
    + now rewrite sapp_assoc, take_drop.
    + rewrite length_drop. simpl in Hlen. lia.
Qed.

End MidCopy.

Section InMemory.
Local Open Scope string_scope.
Variable fresh : nat -> string.

Lemma not_root_of_target (d : Disk) (syscall p : string) (q : list string)
    (o : option Inode) :
  lookup d true syscall p = inr (q, o) -> writable_target o = true -> q <> [].
Proof.
  intros Hl Hw ->. apply (@lookup_sound _ _ _ _ _ _) in Hl. simpl in Hl. subst o. discriminate Hw.
Qed.

Lemma mem_open_r (s : FdDisk) (path : string) (q : list string) (i : Inode) :
  lookup (files s) true "open" path = inr (q, Some i) ->
  mem_open s path "r" = opened s (files s) q false.
Proof.
  intros H. unfold mem_open. change ("r" =? "r") with true. cbv iota.
  rewrite H. reflexivity.
Qed.

Lemma mem_open_w (s : FdDisk) (path : string) (q : list string) (o : option Inode) :
  lookup (files s) true "open" path = inr (q, o) ->
  writable_target o = true ->
  mem_open s path "w" = opened s (put_at (files s) q (IFile "")) q true.
Proof.
  intros H Hw. unfold mem_open.
  change ("w" =? "r") with false. change ("w" =? "w") with true. cbv iota.
  rewrite H. destruct o as [[] |]; try discriminate Hw; reflexivity.
Qed.

(** X10. On the in-memory host, copying a regular file to a name that is
    free or held by another regular file returns with the destination
    holding exactly the bytes of the source, whatever it held before,
    however many chunks that takes and whatever a fresh buffer contains;
    every other path is as it was and no descriptor stays open. *)
Theorem chunkedCopyFileSync_copies_the_bytes
    (fuel : nat) (src dest : string) (s : FdDisk)
    (qs qd : list string) (data : string) (o : option Inode) :
  lookup (files s) true "open" src = inr (qs, Some (IFile data)) ->
  lookup (files s) true "open" dest = inr (qd, o) ->
  writable_target o = true ->
  names_eqb qd qs = false ->
  (String.length data <=? fuel * BUFFER_SIZE)%nat = true ->
  let r := copy fresh fuel src dest s in
  result r = Returned tt /\
  inode_at (files (state r)) qd = Some (IFile data) /\
  (forall p, names_eqb qd p = false ->
             inode_at (files (state r)) p = inode_at (files s) p) /\
  table (state r) = table s.
Proof.
  intros Hsrc Hdest Hw Hdistinct Hfuel r.
  pose proof (@not_root_of_target _ _ _ _ _ Hdest Hw) as Hqd.
  pose proof (@lookup_sound _ _ _ _ _ _ Hsrc) as Hdata.
  apply Nat.leb_le in Hfuel.
  set (fd1 := next_fd (table s)).
  set (D1 := {| at_path := qs; writable := false; offset := 0 |}).
  set (fd2 := next_fd ((fd1, D1) :: table s)).
  assert (Hfds : fd2 <> fd1) by apply next_fd_above.
  pose proof (@copy_loop_completes fresh (files s) (table s) qs qd fd1 fd2
                Hdistinct Hqd Hfds fuel "" data (fresh BUFFER_SIZE) Hdata Hfuel)
    as [Hres Hstate].
  cbv zeta in Hres, Hstate. cbn [String.length append] in Hres, Hstate.
  set (s1 := {| files := files s; table := (fd1, D1) :: table s |}).
  set (s4 := {| files := put_at (files s) qd (IFile data);
                table := (fd1, D1) :: table s |}).
  set (s5 := {| files := put_at (files s) qd (IFile data); table := table s |}).
  assert (E1 : @openSync FdDisk (host fresh) s src "r" = (inr fd1, s1)).
  { change (@openSync FdDisk (host fresh)) with mem_open.
    rewrite (@mem_open_r _ _ _ _ Hsrc). reflexivity. }
  assert (E2 : @openSync FdDisk (host fresh) s1 dest "w"
               = (inr fd2, midway (files s) (table s) qs qd fd1 fd2 "")).
  { change (@openSync FdDisk (host fresh)) with mem_open.
    rewrite (@mem_open_w s1 _ _ _ Hdest Hw). reflexivity. }
  assert (Hfin : result (@read_then_copy FdDisk (host fresh) fuel fd1 fd2
                           (fresh BUFFER_SIZE) 0
                           (midway (files s) (table s) qs qd fd1 fd2 "")) <> OutOfFuel)
    by (rewrite Hres; discriminate).
  assert (Hc1 : @closeSync FdDisk (host fresh)
                  (state (@read_then_copy FdDisk (host fresh) fuel fd1 fd2
                            (fresh BUFFER_SIZE) 0
                            (midway (files s) (table s) qs qd fd1 fd2 ""))) fd2
                = (None, s4)).
  { change (@closeSync FdDisk (host fresh)) with mem_close.
    rewrite Hstate. unfold mem_close, midway; cbn [table files find_fd].
    rewrite Nat.eqb_refl. cbn [drop_fd]. rewrite Nat.eqb_refl. reflexivity. }
  assert (Hc2 : @closeSync FdDisk (host fresh) s4 fd1 = (None, s5)).
  { change (@closeSync FdDisk (host fresh)) with mem_close.
    unfold mem_close, s4; cbn [table files find_fd].
    rewrite Nat.eqb_refl. cbn [drop_fd]. rewrite Nat.eqb_refl. reflexivity. }
  destruct (@chunkedCopyFileSync_run FdDisk (host fresh) fuel src dest
              s s1 _ s4 s5 fd1 fd2 None None E1 E2 Hfin Hc1 Hc2) as [Hr Hs].
  subst r. unfold copy. rewrite Hs, Hr. cbn [files table s5].
  change (@allocBuffer FdDisk (host fresh)) with fresh.
  repeat split.
  - rewrite Hres. reflexivity.
  - now apply inode_at_put_at_same.
  - intros p Hp. now apply inode_at_put_at_other.
Qed.

(** X11. When both paths lead to the same regular file the copy empties
    it: the file is truncated when it is opened for writing, the first
    read finds nothing, and the call returns as if it had succeeded. *)
Theorem chunkedCopyFileSync_onto_itself_truncates
    (fuel : nat) (src dest : string) (s : FdDisk) (q : list string) (data : string) :
  lookup (files s) true "open" src = inr (q, Some (IFile data)) ->
  lookup (files s) true "open" dest = inr (q, Some (IFile data)) ->
  let r := copy fresh fuel src dest s in
  result r = Returned tt /\
  inode_at (files (state r)) q = Some (IFile "") /\
  table (state r) = table s.
Proof.
  intros Hsrc Hdest r.
  assert (Hq : q <> []) by (apply (@not_root_of_target _ _ _ _ _ Hdest); reflexivity).
  set (fd1 := next_fd (table s)).
  set (D1 := {| at_path := q; writable := false; offset := 0 |}).
  set (fd2 := next_fd ((fd1, D1) :: table s)).
  assert (Hfds : fd2 <> fd1) by apply next_fd_above.
  set (s2 := {| files := put_at (files s) q (IFile "");
                table := (fd2, {| at_path := q; writable := true; offset := 0 |})
                         :: (fd1, D1) :: table s |}).
  assert (Hbody : @read_then_copy FdDisk (host fresh) fuel fd1 fd2 (fresh BUFFER_SIZE) 0 s2
                  = mkDone (Returned tt) s2 [Read fd1 BUFFER_SIZE 0 (inr "")]).
  { rewrite read_then_copy_step.
    change (@readSync FdDisk (host fresh)) with mem_read.
    unfold mem_read, s2; cbn [table files find_fd at_path].
    apply Nat.eqb_neq in Hfds. rewrite Hfds, Nat.eqb_refl. cbn [at_path D1].
    rewrite inode_at_put_at_same by exact Hq. reflexivity. }
  set (s1 := {| files := files s; table := (fd1, D1) :: table s |}).
  set (s4 := {| files := put_at (files s) q (IFile ""); table := (fd1, D1) :: table s |}).
  set (s5 := {| files := put_at (files s) q (IFile ""); table := table s |}).
  assert (E1 : @openSync FdDisk (host fresh) s src "r" = (inr fd1, s1)).
  { change (@openSync FdDisk (host fresh)) with mem_open.
    rewrite (@mem_open_r _ _ _ _ Hsrc). reflexivity. }
  assert (E2 : @openSync FdDisk (host fresh) s1 dest "w" = (inr fd2, s2)).
  { change (@openSync FdDisk (host fresh)) with mem_open.
    rewrite (@mem_open_w s1 _ _ _ Hdest eq_refl). reflexivity. }
  assert (Hfin : result (@read_then_copy FdDisk (host fresh) fuel fd1 fd2
                           (fresh BUFFER_SIZE) 0 s2) <> OutOfFuel)
    by (rewrite Hbody; discriminate).
  assert (Hc1 : @closeSync FdDisk (host fresh)
                  (state (@read_then_copy FdDisk (host fresh) fuel fd1 fd2
                            (fresh BUFFER_SIZE) 0 s2)) fd2 = (None, s4)).
  { change (@closeSync FdDisk (host fresh)) with mem_close.
    rewrite Hbody. unfold mem_close, s2; cbn [state table files find_fd].
    rewrite Nat.eqb_refl. cbn [drop_fd]. rewrite Nat.eqb_refl. reflexivity. }
  assert (Hc2 : @closeSync FdDisk (host fresh) s4 fd1 = (None, s5)).
  { change (@closeSync FdDisk (host fresh)) with mem_close.
    unfold mem_close, s4; cbn [table files find_fd].
    rewrite Nat.eqb_refl. cbn [drop_fd]. rewrite Nat.eqb_refl. reflexivity. }
  destruct (@chunkedCopyFileSync_run FdDisk (host fresh) fuel src dest
              s s1 s2 s4 s5 fd1 fd2 None None E1 E2 Hfin Hc1 Hc2) as [Hr Hs].
  subst r. unfold copy. rewrite Hs, Hr. cbn [files table s5].
  change (@allocBuffer FdDisk (host fresh)) with fresh.
  repeat split.
  - rewrite Hbody. reflexivity.
  - now apply inode_at_put_at_same.
Qed.

End InMemory.
End ChunkedCopy.

(** ** Further runs on the in-memory host *)

Import Runtime.

Example releases_counted_as_affected :
  hasNativeDereferenceBug v20_11_1 = false /\
  hasNativeDereferenceBug v22_16_0 = false /\
  hasNativeDereferenceBug v22_17_0 = true /\
  hasNativeDereferenceBug v23_0_0 = true /\
  hasNativeDereferenceBug [Some 22%N] = false /\
  hasNativeDereferenceBug [] = false.
Proof. repeat split. Qed.

(** With a native copy that would link instead of dereferencing, the
    call on 22.17 still produces a regular file. *)
Lemma cpSync_dereference_bypasses_native_witness :
  let r := @cpSync Disk linux (Some linking_native) v22_17_0 2
             "/src/link.txt" "/dest.txt" dereferencing fixture in
  hasNativeDereferenceBug v22_17_0 = true /\
  (r = cp 2 "/src/link.txt" "/dest.txt" dereferencing fixture /\
   Forall (fun ev => is_link_op ev = false) (events r)) /\
  inode_at (disk r) ["dest.txt"] = Some (IFile "target content") /\
  inode_at
    (disk (@cpSync Disk linux (Some linking_native) v22_16_0 2
             "/src/link.txt" "/dest.txt" dereferencing fixture))
    ["dest.txt"] = Some (ILink "/src/link.txt").
Proof.
  split; [reflexivity |]. split; [| vm_compute; auto].
  exact (@cpSync_dereference_bypasses_native Disk linux (Some linking_native) v22_17_0 2
           "/src/link.txt" "/dest.txt" dereferencing fixture eq_refl eq_refl).
Defined.

Lemma polyfillCpSync_stops_at_first_failure_witness :
  let first := cp 2 "/s" "/d" recursively stale_tree in
  let r := cp 2 "/s" "/d" recursively (disk first) in
  @stops_at_first_failure Disk unit false r /\
  outcome r = Thrown (EEXIST "symlink" "../s/missing' -> '/d/dangling") /\
  last (events r) (EvThrow (EISDIR "")) =
    EvSymlink "../s/missing" "/d/dangling" type_file
      (Some (EEXIST "symlink" "../s/missing' -> '/d/dangling")).
Proof.
  split; [| vm_compute; auto].
  exact (@polyfillCpSync_stops_at_first_failure Disk linux 2 "/s" "/d" recursively
           (disk (cp 2 "/s" "/d" recursively stale_tree))).
Defined.


Lemma polyfillCpSync_mirrors_entry_names_witness :
  let r := cp 3 "/s" "/d" recursively tree in
  flag dereference recursively = false /\
  Forall (@mirrors Disk linux "/s" "/d") (events r) /\
  In (EvCopyFile "/s/sub/f" "/d/sub/f" None) (events r).
Proof.
  split; [reflexivity |]. split; [| vm_compute; intuition].
  exact (@polyfillCpSync_mirrors_entry_names Disk linux 3 "/s" "/d" recursively tree
           eq_refl).
Defined.

Lemma options_matter_through_flags_only_witness :
  let r := cp 4 "/src" "/dest" dereferencing fixture in
  let r' := cp 4 "/src" "/dest" dereferencing_verbatim fixture in
  same_flags dereferencing dereferencing_verbatim /\
  same_run r r' /\
  outcome r = Returned tt /\
  disk r = disk r'.
Proof.
  assert (H : same_flags dereferencing dereferencing_verbatim)
    by (split; [reflexivity | split; [reflexivity | left; reflexivity]]).
  split; [exact H |]. split; [| vm_compute; auto].
  exact (@options_matter_through_flags_only Disk linux 4 "/src" "/dest"
           dereferencing dereferencing_verbatim fixture H).
Defined.

Import Fd MemFd.

Lemma chunkedCopyFileSync_closes_what_it_opens_witness :
  let s := closed fixture in
  let r := copy dirty 1 "/src/target.txt" "/out.txt" s in
  result r <> OutOfFuel /\
  @closes_what_it_opens FdDisk (host dirty) "/src/target.txt" "/out.txt" s r /\
  calls r =
    [Open "/src/target.txt" "r" (inr 3);
     Open "/out.txt" "w" (inr 4);
     Read 3 BUFFER_SIZE 0 (inr "target content"%string);
     Write 4 "target content" (inr 14);
     Read 3 BUFFER_SIZE 14 (inr ""%string);
     Close 4 None;
     Close 3 None].
Proof.
  assert (H : result (copy dirty 1 "/src/target.txt" "/out.txt" (closed fixture))
              <> OutOfFuel) by (vm_compute; discriminate).
  split; [exact H |]. split; [| reflexivity].
  exact (@ChunkedCopy.chunkedCopyFileSync_closes_what_it_opens FdDisk (host dirty) 1
           "/src/target.txt" "/out.txt" (closed fixture) H).
Defined.

(** A destination that cannot be opened: the source is closed again. *)
Lemma chunkedCopyFileSync_writes_what_it_reads_witness :
  let r := copy dirty 1 "/src/target.txt" "/out.txt" (closed fixture) in
  let r' := copy dirty 1 "/src/target.txt" "/nowhere/out.txt" (closed fixture) in
  result r <> OutOfFuel /\
  bytes_written (calls r) = bytes_read (calls r) /\
  bytes_written (calls r) = "target content"%string /\
  calls r' =
    [Open "/src/target.txt" "r" (inr 3);
     Open "/nowhere/out.txt" "w" (inl (ENOENT "open" "/nowhere/out.txt"));
     Close 3 None].
Proof.
  assert (H : result (copy dirty 1 "/src/target.txt" "/out.txt" (closed fixture))
              <> OutOfFuel) by (vm_compute; discriminate).
  split; [exact H |]. split; [| vm_compute; auto].
  exact (@ChunkedCopy.chunkedCopyFileSync_writes_what_it_reads FdDisk (host dirty) 1
           "/src/target.txt" "/out.txt" (closed fixture) H).
Defined.

(** Overwriting a longer file through a link to it. *)
Lemma chunkedCopyFileSync_copies_the_bytes_witness :
  let s := closed fixture in
  let r := copy dirty 1 "/src/realdir/file.txt" "/src/link.txt" s in
  lookup fixture true "open" "/src/realdir/file.txt"
    = inr (["src"; "realdir"; "file.txt"], Some (IFile "file content")) /\
  lookup fixture true "open" "/src/link.txt"
    = inr (["src"; "target.txt"], Some (IFile "target content")) /\
  (result r = Returned tt /\
   inode_at (files (state r)) ["src"; "target.txt"] = Some (IFile "file content") /\
   (forall p, names_eqb ["src"; "target.txt"] p = false ->
              inode_at (files (state r)) p = inode_at (files s) p) /\
   table (state r) = table s).
Proof.
  split; [reflexivity |]. split; [reflexivity |].
  exact (@ChunkedCopy.chunkedCopyFileSync_copies_the_bytes dirty 1
           "/src/realdir/file.txt" "/src/link.txt" (closed fixture)
           ["src"; "realdir"; "file.txt"] ["src"; "target.txt"]
           "file content" (Some (IFile "target content"))
           eq_refl eq_refl eq_refl eq_refl eq_refl).
Defined.

(** Copying a file onto a link to itself. *)
Lemma chunkedCopyFileSync_onto_itself_truncates_witness :
  let s := closed fixture in
  let r := copy dirty 1 "/src/target.txt" "/src/link.txt" s in
  lookup fixture true "open" "/src/target.txt"
    = inr (["src"; "target.txt"], Some (IFile "target content")) /\
  lookup fixture true "open" "/src/link.txt"
    = inr (["src"; "target.txt"], Some (IFile "target content")) /\
  (result r = Returned tt /\
   inode_at (files (state r)) ["src"; "target.txt"] = Some (IFile "") /\
   table (state r) = table s).
Proof.
  split; [reflexivity |]. split; [reflexivity |].
  exact (@ChunkedCopy.chunkedCopyFileSync_onto_itself_truncates dirty 1
           "/src/target.txt" "/src/link.txt" (closed fixture)
           ["src"; "target.txt"] "target content" eq_refl eq_refl).
Defined.
